(** * tqdm.py: a shallow embedding and its verified properties

    The development follows the source file top-down:

    - [Py]: the Python built-ins the module relies on (exceptions, [int],
      binary64 [float], [%]-formatting, string repetition).  Floats are IEEE
      754 binary64 values, modelled with the Standard Library's executable
      specification [SpecFloat] at precision 53 and maximal exponent 1024.
    - [format_interval], [format_meter]: the two formatters.
    - [StatusPrinter], [tqdm]: the printer object and the generator, written
      in a small state-and-exception monad over the observable events
      (values yielded, writes and flushes on the sink, writes on
      [sys.stdout]).
    - [trange], with the properties that concern it, closes the file.

    Python semantics are those of Python 3 (the module falls back to [range]
    when [xrange] is undefined).  In particular an order comparison between
    an [int] and [None] raises [TypeError]. *)

From Stdlib Require Import ZArith List String Ascii Bool Lia.
From Stdlib Require Import SpecFloat.
Import ListNotations.

Local Open Scope string_scope.
Local Open Scope Z_scope.

(* ================================================================== *)
(** * Python built-ins *)
(* ================================================================== *)

Module Py.

(** ** Exceptions and results *)

Inductive exn : Type :=
| TypeError
| ZeroDivisionError
| OverflowError
| ValueError.

Inductive result (A : Type) : Type :=
| Ok (a : A)
| Raise (e : exn).

Arguments Ok {A} a.
Arguments Raise {A} e.

Definition rbind {A B : Type} (r : result A) (k : A -> result B) : result B :=
  match r with
  | Ok a => k a
  | Raise e => Raise e
  end.

(** ** Strings *)

(** [len(s)] *)
Definition len (s : string) : Z := Z.of_nat (String.length s).

Fixpoint repeat_string (s : string) (k : nat) : string :=
  match k with
  | O => ""
  | S k' => s ++ repeat_string s k'
  end.

(** [s * k]: a non-positive count gives the empty string. *)
Definition str_mul (s : string) (k : Z) : string := repeat_string s (Z.to_nat k).

(** Left padding of [s] with [fill] up to [width] characters. *)
Definition rjust (width : Z) (fill : string) (s : string) : string :=
  str_mul fill (width - len s) ++ s.

(** ** Integers in decimal *)

Definition digit_char (d : Z) : ascii := ascii_of_nat (48 + Z.to_nat d).

(** Digits of a non-negative integer, least significant first, pushed on
    [acc]; [fuel] bounds the number of digits. *)
Fixpoint dec_loop (fuel : nat) (n : Z) (acc : string) : string :=
  match fuel with
  | O => acc
  | S fuel' =>
      let acc' := String (digit_char (n mod 10)) acc in
      if n / 10 =? 0 then acc' else dec_loop fuel' (n / 10) acc'
  end.

(** A non-negative integer has at most [log2 n + 1] decimal digits. *)
Definition dec_digits (n : Z) : string :=
  dec_loop (S (Z.to_nat (Z.log2 n))) n "".

(** ['%d' % z] *)
Definition fmt_d (z : Z) : string :=
  if z <? 0 then "-" ++ dec_digits (- z) else dec_digits z.

(** ['%0<w>d' % z]: zeros are inserted between the sign and the digits. *)
Definition fmt_0d (w : Z) (z : Z) : string :=
  if z <? 0 then "-" ++ rjust (w - 1) "0" (dec_digits (- z))
  else rjust w "0" (dec_digits z).

(** ['%<w>d' % z] *)
Definition fmt_wd (w : Z) (z : Z) : string := rjust w " " (fmt_d z).

(** ** Floats: IEEE 754 binary64 *)

Definition float : Type := spec_float.

Definition prec : Z := 53.
Definition emax : Z := 1024.

Definition fmul : float -> float -> float := SFmul prec emax.
Definition fsub : float -> float -> float := SFsub prec emax.
Definition fquo : float -> float -> float := SFdiv prec emax.

(** The float nearest to an integer (ties to even), infinite when the
    integer is out of range. *)
Definition nearest_float (z : Z) : float := binary_normalize prec emax z 0 false.

(** Implicit conversion of an [int] operand to [float]: an integer that
    rounds beyond the largest finite float raises [OverflowError]. *)
Definition float_of_int (z : Z) : result float :=
  match nearest_float z with
  | S754_infinity _ => Raise OverflowError
  | f => Ok f
  end.

(** Truth value of a float: false exactly for the two zeros. *)
Definition float_truth (x : float) : bool :=
  match x with
  | S754_zero _ => false
  | _ => true
  end.

(** [x / y] on floats: a zero divisor raises. *)
Definition float_div (x y : float) : result float :=
  if float_truth y then Ok (fquo x y) else Raise ZeroDivisionError.

(** [x >= y] on floats (false when either operand is a NaN). *)
Definition float_ge (x y : float) : bool := SFleb y x.

(** Integer part of a finite float, rounding toward zero. *)
Definition truncate (s : bool) (m : positive) (e : Z) : Z :=
  let a := if 0 <=? e then Zpos m * 2 ^ e else Zpos m / 2 ^ (- e) in
  if s then - a else a.

(** [int(x)] *)
Definition int_of_float (x : float) : result Z :=
  match x with
  | S754_zero _ => Ok 0
  | S754_finite s m e => Ok (truncate s m e)
  | S754_infinity _ => Raise OverflowError
  | S754_nan => Raise ValueError
  end.

(** Nearest integer to [a / b] for [0 <= a] and [0 < b], ties to even. *)
Definition div_nearest_even (a b : Z) : Z :=
  let q := a / b in
  match 2 * (a mod b) ?= b with
  | Lt => q
  | Eq => if Z.even q then q else q + 1
  | Gt => q + 1
  end.

(** The magnitude [m * 2^e] in hundredths, correctly rounded. *)
Definition hundredths (m : positive) (e : Z) : Z :=
  if 0 <=? e then Zpos m * 2 ^ e * 100
  else div_nearest_even (Zpos m * 100) (2 ^ (- e)).

Definition fixed2 (s : bool) (h : Z) : string :=
  (if s then "-" else "") ++ fmt_d (h / 100) ++ "." ++ fmt_0d 2 (h mod 100).

(** ['%5.2f' % x] *)
Definition fmt_5_2f (x : float) : string :=
  rjust 5 " "
    match x with
    | S754_nan => "nan"
    | S754_infinity s => if s then "-inf" else "inf"
    | S754_zero s => fixed2 s 0
    | S754_finite s m e => fixed2 s (hundredths m e)
    end.

(** ['%3d%%' % x] with [x] a float: the value is converted with [int]. *)
Definition fmt_3d_percent (x : float) : result string :=
  rbind (int_of_float x) (fun p => Ok (fmt_wd 3 p ++ "%")).

End Py.

Import Py.

Notation "x <- c1 ;; c2" := (rbind c1 (fun x => c2))
  (at level 61, c1 at next level, right associativity).

(* ================================================================== *)
(** * The formatters *)
(* ================================================================== *)

(** [divmod(a, 60)]: floor division, as [Z.div] and [Z.modulo] for a
    positive divisor. *)
Definition divmod60 (a : Z) : Z * Z := (a / 60, a mod 60).

(** [format_interval(t)] *)
Definition format_interval (t : float) : result string :=
  secs <- int_of_float t ;;
  let '(mins, s) := divmod60 secs in
  let '(h, m) := divmod60 mins in
  if negb (h =? 0) then
    Ok (fmt_d h ++ ":" ++ fmt_0d 2 m ++ ":" ++ fmt_0d 2 s)
  else
    Ok (fmt_0d 2 m ++ ":" ++ fmt_0d 2 s).

(** [if n > total: total = None].  With [total] equal to [None] the
    comparison itself raises. *)
Definition guard_total (n : Z) (total : option Z) : result (option Z) :=
  match total with
  | None => Raise TypeError
  | Some t => Ok (if n >? t then None else Some t)
  end.

(** [rate = '%5.2f' % (n / elapsed) if elapsed else '?'] *)
Definition rate_str (n : Z) (elapsed : float) : result string :=
  if float_truth elapsed then
    fn <- float_of_int n ;;
    r <- float_div fn elapsed ;;
    Ok (fmt_5_2f r)
  else Ok "?".

(** [frac = float(n) / total] *)
Definition fraction (n total : Z) : result float :=
  fn <- float_of_int n ;;
  ft <- float_of_int total ;;
  float_div fn ft.

Definition n_bars : Z := 10.

(** [bar_length = int(frac * n_bars)] *)
Definition bar_length (frac : float) : result Z :=
  int_of_float (fmul frac (nearest_float n_bars)).

(** [bar = '#' * bar_length + '-' * (n_bars - bar_length)] *)
Definition bar_of (k : Z) : string := str_mul "#" k ++ str_mul "-" (n_bars - k).

(** [percentage = '%3d%%' % (frac * 100)] *)
Definition percentage (frac : float) : result string :=
  fmt_3d_percent (fmul frac (nearest_float 100)).

(** [left_str = format_interval(elapsed / n * (total - n)) if n else '?'] *)
Definition left_str (n total : Z) (elapsed : float) : result string :=
  if negb (n =? 0) then
    fn <- float_of_int n ;;
    q <- float_div elapsed fn ;;
    d <- float_of_int (total - n) ;;
    format_interval (fmul q d)
  else Ok "?".

(** The two output shapes. *)
Definition known_line (bar : string) (n total : Z)
    (pct elapsed_s left_s rate : string) : string :=
  "|" ++ bar ++ "| " ++ fmt_d n ++ "/" ++ fmt_d total ++ " " ++ pct
  ++ " [elapsed: " ++ elapsed_s ++ " left: " ++ left_s ++ ", " ++ rate
  ++ " iters/sec]".

Definition unknown_line (n : Z) (elapsed_s rate : string) : string :=
  fmt_d n ++ " [elapsed: " ++ elapsed_s ++ ", " ++ rate ++ " iters/sec]".

(** [format_meter(n, total, elapsed)] *)
Definition format_meter (n : Z) (total : option Z) (elapsed : float)
  : result string :=
  total <- guard_total n total ;;
  elapsed_str <- format_interval elapsed ;;
  rate <- rate_str n elapsed ;;
  match total with
  | Some t =>
      if negb (t =? 0) then
        frac <- fraction n t ;;
        k <- bar_length frac ;;
        pct <- percentage frac ;;
        left <- left_str n t elapsed ;;
        Ok (known_line (bar_of k) n t pct elapsed_str left rate)
      else Ok (unknown_line n elapsed_str rate)
  | None => Ok (unknown_line n elapsed_str rate)
  end.

(** The percentage of the specification's wording: [100 * n / total]
    rounded to the nearest integer, right-justified to width 3, with a
    percent sign. *)
Definition rounded_percentage (n total : Z) : string :=
  fmt_wd 3 (div_nearest_even (100 * n) total) ++ "%".

(* ================================================================== *)
(** * The status printer and the generator *)
(* ================================================================== *)

Section Generator.

(** The element type of the wrapped iterable and the wall clock: the
    [i]-th call of [time.time()] returns [clock i]. *)
Variable A : Type.
Variable clock : nat -> float.

(** What a run does to the outside world, in order: a value handed to the
    consumer, a call of [file.write] or [file.flush], a call of
    [sys.stdout.write].  The generator does nothing else with its [file]
    argument, so [file] is no field of the configuration below; the sink
    may be any stream, [sys.stdout] itself included, and the events keep
    the two names apart. *)
Inductive event : Type :=
| Yield (obj : A)
| FileWrite (s : string)
| FileFlush
| StdoutWrite (s : string).

Record world : Type := mkWorld {
  trace : list event;
  ticks : nat
}.

(** Computations: a result (or an exception) and the world they leave. *)
Definition M (X : Type) : Type := world -> result X * world.

Definition ret {X : Type} (x : X) : M X := fun w => (Ok x, w).

Definition bind {X Y : Type} (c : M X) (k : X -> M Y) : M Y :=
  fun w =>
    match c w with
    | (Ok x, w') => k x w'
    | (Raise e, w') => (Raise e, w')
    end.

Definition lift {X : Type} (r : result X) : M X := fun w => (r, w).

Definition emit (e : event) : M unit :=
  fun w => (Ok tt, mkWorld (trace w ++ [e]) (ticks w)).

(** [time.time()] *)
Definition time_time : M float :=
  fun w => (Ok (clock (ticks w)), mkWorld (trace w) (S (ticks w))).

Notation "x <~ c1 ;; c2" := (bind c1 (fun x => c2))
  (at level 61, c1 at next level, right associativity).
Notation "c1 ;;; c2" := (bind c1 (fun _ => c2))
  (at level 61, right associativity).

(** ** [StatusPrinter] *)

Record StatusPrinter : Type := mkStatusPrinter {
  last_printed_len : Z
}.

(** [StatusPrinter(file)] *)
Definition StatusPrinter_init : StatusPrinter := mkStatusPrinter 0.

(** [sp.print_status(s)]; the updated object is returned. *)
Definition print_status (sp : StatusPrinter) (s : string) : M StatusPrinter :=
  emit (FileWrite
          (String "013" "" ++ s
           ++ str_mul " " (Z.max (last_printed_len sp - len s) 0))) ;;;
  emit FileFlush ;;;
  ret (mkStatusPrinter (len s)).

(** ** [tqdm] *)

(** The iterable: its items, and what [len(iterable)] returns ([None] when
    it raises [TypeError]). *)
Record iterable : Type := mkIterable {
  items : list A;
  it_len : option Z
}.

Record config : Type := mkConfig {
  desc : string;
  total : option Z;
  leave : bool;
  mininterval : float;
  miniters : Z
}.

(** The local variables of the loop. *)
Record locals : Type := mkLocals {
  sp : StatusPrinter;
  start_t : float;
  last_print_t : float;
  last_print_n : Z;
  n : Z
}.

Section Body.

Variable cfg : config.
Variable total' : option Z.
Variable prefix : string.

(** [sp.print_status(prefix + format_meter(n, total, elapsed))] *)
Definition render (p : StatusPrinter) (k : Z) (elapsed : float)
  : M StatusPrinter :=
  line <~ lift (format_meter k total' elapsed) ;;
  print_status p (prefix ++ line).

(** The statements after [yield obj]. *)
Definition after_yield (st : locals) : M locals :=
  let n1 := n st + 1 in
  if n1 - last_print_n st >=? miniters cfg then
    cur_t <~ time_time ;;
    if float_ge (fsub cur_t (last_print_t st)) (mininterval cfg) then
      p <~ render (sp st) n1 (fsub cur_t (start_t st)) ;;
      ret (mkLocals p (start_t st) cur_t n1 n1)
    else ret (mkLocals (sp st) (start_t st) (last_print_t st) (last_print_n st) n1)
  else ret (mkLocals (sp st) (start_t st) (last_print_t st) (last_print_n st) n1).

(** [for obj in iterable: yield obj; ...] *)
Fixpoint loop (xs : list A) (st : locals) : M locals :=
  match xs with
  | [] => ret st
  | obj :: rest =>
      emit (Yield obj) ;;;
      st' <~ after_yield st ;;
      loop rest st'
  end.

(** The statements after the loop. *)
Definition finish (st : locals) : M unit :=
  if negb (leave cfg) then
    print_status (sp st) "" ;;;
    emit (StdoutWrite (String "013" ""))
  else
    (if last_print_n st <? n st then
       cur_t <~ time_time ;;
       render (sp st) (n st) (fsub cur_t (start_t st)) ;;;
       ret tt
     else ret tt) ;;;
    emit (FileWrite (String "010" "")).

End Body.

(** [total], once [len(iterable)] has been tried. *)
Definition resolve_total (it : iterable) (cfg : config) : option Z :=
  match total cfg with
  | None => it_len it
  | Some t => Some t
  end.

(** [prefix = desc + ': ' if desc else ''] *)
Definition prefix_of (cfg : config) : string :=
  match desc cfg with
  | EmptyString => ""
  | d => d ++ ": "
  end.

(** [tqdm(iterable, desc, total, leave, file, mininterval, miniters)],
    consumed until it is exhausted or raises.  The literal [0] passed as
    [elapsed] to the first [format_meter] call is the float zero: the call
    only takes its truth value and its integer part. *)
Definition tqdm (it : iterable) (cfg : config) : M unit :=
  let total' := resolve_total it cfg in
  let prefix := prefix_of cfg in
  p <~ render total' prefix StatusPrinter_init 0 (nearest_float 0) ;;
  t0 <~ time_time ;;
  st <~ loop cfg total' prefix (items it) (mkLocals p t0 t0 0 0) ;;
  finish cfg total' prefix st.

(** A run from the empty world. *)
Definition run (it : iterable) (cfg : config) : result unit * world :=
  tqdm it cfg (mkWorld [] 0).

(** The values handed to the consumer, in order. *)
Fixpoint yields (tr : list event) : list A :=
  match tr with
  | [] => []
  | Yield obj :: tr' => obj :: yields tr'
  | _ :: tr' => yields tr'
  end.

(** The number of status lines printed (each ends with one flush). *)
Fixpoint renders (tr : list event) : Z :=
  match tr with
  | [] => 0
  | FileFlush :: tr' => 1 + renders tr'
  | _ :: tr' => renders tr'
  end.

End Generator.

Arguments Yield {A}.
Arguments FileWrite {A}.
Arguments FileFlush {A}.
Arguments StdoutWrite {A}.
Arguments mkWorld {A}.
Arguments trace {A}.
Arguments ticks {A}.
Arguments mkIterable {A}.
Arguments items {A}.
Arguments it_len {A}.
Arguments ret {A}.
Arguments lift {A}.
Arguments emit {A}.
Arguments print_status {A}.
Arguments resolve_total {A}.
Arguments finish {A}.
Arguments loop {A}.
Arguments after_yield {A}.
Arguments render {A}.
Arguments tqdm {A}.
Arguments run {A}.
Arguments yields {A}.
Arguments renders {A}.
Arguments bind {A}.
Arguments time_time {A}.

(* ================================================================== *)
(** * Literals and recognisers used in the statements *)
(* ================================================================== *)

Definition CR : string := String "013" "".
Definition NL : string := String "010" "".

(** The float literals [3.07] and [10.0]: the correctly rounded quotient
    of two exactly represented integers is the float nearest to the
    decimal. *)
Definition f_3_07 : float := fquo (nearest_float 307) (nearest_float 100).
Definition f_10_0 : float := nearest_float 10.

(** [0 <= x] for a float that is neither infinite nor a NaN. *)
Definition nonneg_finite (x : float) : bool :=
  match x with
  | S754_zero _ => true
  | S754_finite s _ _ => negb s
  | _ => false
  end.

(** [x <= K] for a float and an integer, by exact arithmetic on the
    mantissa and the exponent. *)
Definition float_le_Z (x : float) (K : Z) : bool :=
  match x with
  | S754_zero _ => 0 <=? K
  | S754_finite s m e =>
      let v := if s then Zneg m else Zpos m in
      if 0 <=? e then v * 2 ^ e <=? K else v <=? K * 2 ^ (- e)
  | S754_infinity s => s
  | S754_nan => false
  end.

(** [x < K], likewise. *)
Definition float_lt_Z (x : float) (K : Z) : bool :=
  match x with
  | S754_zero _ => 0 <? K
  | S754_finite s m e =>
      let v := if s then Zneg m else Zpos m in
      if 0 <=? e then v * 2 ^ e <? K else v <? K * 2 ^ (- e)
  | S754_infinity s => s
  | S754_nan => false
  end.

(** [format_meter] reaches its known-total branch: the guard [n > total]
    was evaluated and left [total] in place, and [total] is true. *)
Definition takes_known_branch (n : Z) (total : option Z) : bool :=
  match guard_total n total with
  | Ok (Some t) => negb (t =? 0)
  | _ => false
  end.

(** The [percentage] local of [format_meter], from its arguments. *)
Definition rendered_percentage (n total : Z) : result string :=
  frac <- fraction n total ;; percentage frac.

(** [needle in s] *)
Fixpoint is_infix (needle s : string) : bool :=
  prefix needle s ||
  match s with
  | EmptyString => false
  | String _ s' => is_infix needle s'
  end.

Definition is_digit (c : ascii) : bool :=
  (48 <=? nat_of_ascii c)%nat && (nat_of_ascii c <=? 57)%nat.

Fixpoint all_digits (s : string) : bool :=
  match s with
  | EmptyString => true
  | String c s' => is_digit c && all_digits s'
  end.

(** The fields of [s] between its colons. *)
Fixpoint fields (s : string) : list string :=
  match s with
  | EmptyString => [EmptyString]
  | String c s' =>
      if Ascii.eqb c ":" then EmptyString :: fields s'
      else match fields s' with
           | [] => [String c EmptyString]
           | f :: fs => String c f :: fs
           end
  end.

Definition digits1 (s : string) : bool :=
  all_digits s && negb (String.length s =? 0)%nat.

Definition digits2 (s : string) : bool :=
  all_digits s && (String.length s =? 2)%nat.

(** [^\d+:\d{2}$] *)
Definition matches_MS (s : string) : bool :=
  match fields s with
  | [a; b] => digits1 a && digits2 b
  | _ => false
  end.

(** [^\d+:\d{2}:\d{2}$] *)
Definition matches_HMS (s : string) : bool :=
  match fields s with
  | [a; b; c] => digits1 a && digits2 b && digits2 c
  | _ => false
  end.

(* ================================================================== *)
(** * Properties *)
(* ================================================================== *)

(** ** Concrete calls of [format_meter] *)

(** C2: [format_meter(30, 50, 3.07)] is the documented line: six filled
    and four empty marks in the bar, the percentage right-justified to
    width 3. *)
Theorem format_meter_30_50 :
  format_meter 30 (Some 50) f_3_07 =
    Ok "|######----| 30/50  60% [elapsed: 00:03 left: 00:02,  9.77 iters/sec]"
  /\ bar_of 6 = "######----"
  /\ fmt_wd 3 60 = " 60".
Proof. repeat split; vm_compute; reflexivity. Qed.

(** C6: with [total] equal to [None], the guard [n > total] compares an
    [int] with [None] and raises [TypeError]; no line is returned. *)
Theorem format_meter_None_raises :
  format_meter 5 None f_10_0 = Raise TypeError.
Proof. reflexivity. Qed.

(** The guard raises for every count and every elapsed time. *)
Lemma format_meter_None (k : Z) (elapsed : float) :
  format_meter k None elapsed = Raise TypeError.
Proof. reflexivity. Qed.

(** The line the call was meant to return is the one produced when the
    total is known but unusable. *)
Example format_meter_5_of_0 :
  format_meter 5 (Some 0) f_10_0 = Ok "5 [elapsed: 00:10,  0.50 iters/sec]".
Proof. vm_compute. reflexivity. Qed.

(** ** Decimal digits *)

Lemma is_digit_digit_char (d : Z) : 0 <= d < 10 -> is_digit (digit_char d) = true.
Proof.
  intros H. assert (E : exists k, (k < 10)%nat /\ d = Z.of_nat k).
  { exists (Z.to_nat d). lia. }
  destruct E as (k & Hk & ->).
  do 10 (destruct k as [|k]; [reflexivity|]). lia.
Qed.

Lemma all_digits_dec_loop (fuel : nat) :
  forall k acc, all_digits acc = true -> all_digits (dec_loop fuel k acc) = true.
Proof.
  induction fuel as [|fuel IH]; intros k acc H; cbn [dec_loop]; [exact H|].
  assert (D : all_digits (String (digit_char (k mod 10)) acc) = true).
  { cbn [all_digits]. rewrite H, is_digit_digit_char; [reflexivity|].
    apply Z.mod_pos_bound. lia. }
  destruct (k / 10 =? 0); [exact D | now apply IH].
Qed.

Lemma dec_loop_nonempty (fuel : nat) :
  forall k acc, acc <> "" -> dec_loop fuel k acc <> "".
Proof.
  induction fuel as [|fuel IH]; intros k acc H; cbn [dec_loop]; [exact H|].
  destruct (k / 10 =? 0); [discriminate | apply IH; discriminate].
Qed.

Lemma digits1_dec_digits (k : Z) : digits1 (dec_digits k) = true.
Proof.
  unfold digits1, dec_digits.
  rewrite all_digits_dec_loop by reflexivity.
  assert (N : dec_loop (S (Z.to_nat (Z.log2 k))) k "" <> "").
  { cbn [dec_loop]. destruct (k / 10 =? 0); [discriminate|].
    apply dec_loop_nonempty. discriminate. }
  destruct (dec_loop _ _ _); [now elim N | reflexivity].
Qed.

Lemma fmt_d_nonneg (k : Z) : 0 <= k -> fmt_d k = dec_digits k.
Proof. intros H. unfold fmt_d. destruct (k <? 0) eqn:E; [lia | reflexivity]. Qed.

(** Minutes and seconds always print as two digits. *)
Lemma digits2_fmt_0d (k : Z) : 0 <= k < 60 -> digits2 (fmt_0d 2 k) = true.
Proof.
  intros H. assert (E : exists j, (j < 60)%nat /\ k = Z.of_nat j).
  { exists (Z.to_nat k). lia. }
  destruct E as (j & Hj & ->).
  assert (F : forallb (fun i => digits2 (fmt_0d 2 (Z.of_nat i))) (seq 0 60) = true)
    by (vm_compute; reflexivity).
  rewrite forallb_forall in F. apply F, in_seq. lia.
Qed.

(** ** Fields *)

Lemma fields_nonempty (s : string) : fields s <> [].
Proof.
  destruct s as [|c s]; cbn [fields]; [discriminate|].
  destruct (Ascii.eqb c ":"); [discriminate|].
  destruct (fields s); discriminate.
Qed.

Lemma is_digit_not_colon (c : ascii) : is_digit c = true -> Ascii.eqb c ":" = false.
Proof.
  intros H. destruct (Ascii.eqb_spec c ":") as [->|]; [discriminate H | reflexivity].
Qed.

Lemma fields_digits_colon (a rest : string) :
  all_digits a = true -> fields (a ++ ":" ++ rest) = a :: fields rest.
Proof.
  induction a as [|c a IH]; intros H; [reflexivity|].
  cbn [all_digits] in H. apply andb_prop in H. destruct H as [Hc Ha].
  cbn [append fields]. rewrite (is_digit_not_colon c Hc).
  cbn [append] in IH. rewrite (IH Ha). reflexivity.
Qed.

Lemma fields_digits (a : string) : all_digits a = true -> fields a = [a].
Proof.
  induction a as [|c a IH]; intros H; [reflexivity|].
  cbn [all_digits] in H. apply andb_prop in H. destruct H as [Hc Ha].
  cbn [fields]. rewrite (is_digit_not_colon c Hc), (IH Ha). reflexivity.
Qed.

Lemma digits1_all (s : string) : digits1 s = true -> all_digits s = true.
Proof. unfold digits1. intros H. now apply andb_prop in H. Qed.

Lemma digits2_all (s : string) : digits2 s = true -> all_digits s = true.
Proof. unfold digits2. intros H. now apply andb_prop in H. Qed.

Lemma digits2_digits1 (s : string) : digits2 s = true -> digits1 s = true.
Proof.
  unfold digits1, digits2. intros H. apply andb_prop in H. destruct H as [-> H].
  apply Nat.eqb_eq in H. rewrite H. reflexivity.
Qed.

Lemma matches_MS_intro (a b : string) :
  digits1 a = true -> digits2 b = true -> matches_MS (a ++ ":" ++ b) = true.
Proof.
  intros Ha Hb. unfold matches_MS.
  rewrite fields_digits_colon by now apply digits1_all.
  rewrite fields_digits by now apply digits2_all.
  now rewrite Ha, Hb.
Qed.

Lemma matches_HMS_intro (a b c : string) :
  digits1 a = true -> digits2 b = true -> digits2 c = true ->
  matches_HMS (a ++ ":" ++ b ++ ":" ++ c) = true.
Proof.
  intros Ha Hb Hc. unfold matches_HMS.
  rewrite fields_digits_colon by now apply digits1_all.
  rewrite fields_digits_colon by now apply digits2_all.
  rewrite fields_digits by now apply digits2_all.
  now rewrite Ha, Hb, Hc.
Qed.

(** ** Binary digits *)

Lemma digits2_pos_bounds (m : positive) :
  2 ^ (Zpos (digits2_pos m) - 1) <= Zpos m < 2 ^ Zpos (digits2_pos m).
Proof.
  induction m as [m IH|m IH|]; cbn [digits2_pos].
  - rewrite Pos2Z.inj_succ.
    replace (Z.succ (Zpos (digits2_pos m)) - 1) with (Z.succ (Zpos (digits2_pos m) - 1)) by lia.
    rewrite !Z.pow_succ_r by lia. lia.
  - rewrite Pos2Z.inj_succ.
    replace (Z.succ (Zpos (digits2_pos m)) - 1) with (Z.succ (Zpos (digits2_pos m) - 1)) by lia.
    rewrite !Z.pow_succ_r by lia. lia.
  - cbn. lia.
Qed.

(** A number of [d] binary digits is the only kind that lies in
    [[2^(d-1), 2^d)]. *)
Lemma digits2_pos_unique (m : positive) (d : Z) :
  2 ^ (d - 1) <= Zpos m < 2 ^ d -> Zpos (digits2_pos m) = d.
Proof.
  intros [Hl Hu]. pose proof (digits2_pos_bounds m) as [Bl Bu].
  assert (0 < d).
  { destruct (Z_lt_le_dec 0 d) as [|Hd]; [assumption|].
    assert (2 ^ d <= 2 ^ 0) by (destruct (Z_lt_le_dec d 0);
      [rewrite Z.pow_neg_r by lia; cbn; lia | apply Z.pow_le_mono_r; lia]).
    cbn in *. lia. }
  destruct (Z.lt_trichotomy (Zpos (digits2_pos m)) d) as [L|[E|G]]; [|exact E|].
  - assert (2 ^ Zpos (digits2_pos m) <= 2 ^ (d - 1)) by (apply Z.pow_le_mono_r; lia).
    lia.
  - assert (2 ^ d <= 2 ^ (Zpos (digits2_pos m) - 1)) by (apply Z.pow_le_mono_r; lia).
    lia.
Qed.

(** ** Valid floats *)

Lemma valid_finite (s : bool) (m : positive) (e : Z) :
  valid_binary prec emax (S754_finite s m e) = true ->
  Zpos m < 2 ^ 53
  /\ (-1074 <= e)
  /\ (-1074 < e -> 2 ^ 52 <= Zpos m).
Proof.
  cbn [valid_binary]. unfold bounded, canonical_mantissa, fexp, emin, prec, emax.
  intros H. apply andb_prop in H. destruct H as [H _].
  apply Z.eqb_eq in H.
  pose proof (digits2_pos_bounds m) as [Bl Bu].
  set (d := Zpos (digits2_pos m)) in *.
  assert (0 < d) by (unfold d; lia).
  assert (D : d <= 53) by lia.
  split; [|split].
  - assert (2 ^ d <= 2 ^ 53) by (apply Z.pow_le_mono_r; lia). lia.
  - lia.
  - intros He. assert (d = 53) by lia. replace (d - 1) with 52 in Bl by lia.
    exact Bl.
Qed.


Lemma nearest_float_3600 :
  nearest_float 3600 = S754_finite false 7916483719987200 (-41).
Proof. vm_compute. reflexivity. Qed.

Lemma truncate_neg_exp (m : positive) (e : Z) :
  e < 0 -> truncate false m e = Zpos m / 2 ^ (- e).
Proof. intros H. unfold truncate. destruct (0 <=? e) eqn:P; [lia | reflexivity]. Qed.

Lemma truncate_pos_exp (m : positive) (e : Z) :
  0 <= e -> truncate false m e = Zpos m * 2 ^ e.
Proof. intros H. unfold truncate. destruct (0 <=? e) eqn:P; [reflexivity | lia]. Qed.

Lemma SFltb_finite_pos (m1 m2 : positive) (e1 e2 : Z) :
  SFltb (S754_finite false m1 e1) (S754_finite false m2 e2) =
    match e1 ?= e2 with
    | Lt => true
    | Gt => false
    | Eq => Zpos m1 <? Zpos m2
    end.
Proof.
  unfold SFltb, SFcompare. destruct (e1 ?= e2); reflexivity.
Qed.

Lemma ltb_3600 (t : float) (secs : Z) :
  valid_binary prec emax t = true ->
  nonneg_finite t = true ->
  int_of_float t = Ok secs ->
  SFltb t (nearest_float 3600) = (secs <? 3600).
Proof.
  intros V N I. rewrite nearest_float_3600.
  destruct t as [s|s| |s m e]; try discriminate N.
  - injection I as <-. reflexivity.
  - destruct s; [discriminate N|].
    assert (E : secs = truncate false m e)
      by (cbn [int_of_float] in I; congruence).
    subst secs. clear I.
    apply valid_finite in V. destruct V as (Vu & Ve & Vn).
    rewrite SFltb_finite_pos.
    assert (P53 : 2 ^ 53 = 9007199254740992) by reflexivity.
    assert (P52 : 2 ^ 52 = 4503599627370496) by reflexivity.
    rewrite P53 in Vu. rewrite P52 in Vn.
    destruct (Z.compare_spec e (-41)) as [E|L|G].
    + rewrite truncate_neg_exp by lia. subst e.
      assert (P41 : 2 ^ (- -41) = 2199023255552) by reflexivity. rewrite P41.
      destruct (Z.ltb_spec (Zpos m) 7916483719987200) as [L|G]; symmetry.
      * apply Z.ltb_lt. apply Z.div_lt_upper_bound; lia.
      * apply Z.ltb_ge. apply Z.div_le_lower_bound; lia.
    + symmetry. apply Z.ltb_lt. rewrite truncate_neg_exp by lia.
      apply Z.div_lt_upper_bound; [apply Z.pow_pos_nonneg; lia|].
      assert (H42 : 2 ^ 42 <= 2 ^ (- e)) by (apply Z.pow_le_mono_r; lia).
      assert (P42 : 2 ^ 42 = 4398046511104) by reflexivity. rewrite P42 in H42.
      nia.
    + symmetry. apply Z.ltb_ge.
      assert (M : 4503599627370496 <= Zpos m) by (apply Vn; lia).
      destruct (Z_lt_le_dec e 0) as [Hneg|Hpos].
      * rewrite truncate_neg_exp by lia.
        apply Z.div_le_lower_bound; [apply Z.pow_pos_nonneg; lia|].
        assert (H40 : 2 ^ (- e) <= 2 ^ 40) by (apply Z.pow_le_mono_r; lia).
        assert (P40 : 2 ^ 40 = 1099511627776) by reflexivity. rewrite P40 in H40.
        nia.
      * rewrite truncate_pos_exp by lia.
        assert (0 < 2 ^ e) by (apply Z.pow_pos_nonneg; lia). nia.
Qed.

(** ** Right shifts of the rounding unit

    [SpecFloat] rounds by shifting a mantissa right one bit at a time,
    remembering the last bit shifted out (the round bit) and whether any
    earlier one was set (the sticky bit). *)

Lemma iter_pos_nat {X : Type} (f : X -> X) (p : positive) :
  forall x, iter_pos f p x = Nat.iter (Pos.to_nat p) f x.
Proof.
  induction p as [p IH|p IH|]; intros x; cbn [iter_pos].
  - rewrite !IH, Pos2Nat.inj_xI.
    replace (S (2 * Pos.to_nat p))%nat with (Pos.to_nat p + S (Pos.to_nat p))%nat by lia.
    rewrite Nat.iter_add. f_equal. now rewrite Nat.iter_succ_r.
  - rewrite !IH, Pos2Nat.inj_xO.
    replace (2 * Pos.to_nat p)%nat with (Pos.to_nat p + Pos.to_nat p)%nat by lia.
    now rewrite Nat.iter_add.
  - reflexivity.
Qed.

Lemma shr_1_spec (m : Z) (r s : bool) :
  0 <= m ->
  shr_1 (Build_shr_record m r s) =
    Build_shr_record (m / 2) (Z.odd m) (r || s).
Proof.
  intros H. destruct m as [|p|p]; [reflexivity | | lia].
  destruct p as [p|p|]; cbn [shr_1].
  - f_equal. rewrite Pos2Z.inj_xI.
    apply (Z.div_unique _ _ _ 1); lia.
  - f_equal. rewrite Pos2Z.inj_xO.
    apply (Z.div_unique _ _ _ 0); lia.
  - reflexivity.
Qed.

(** Where the bits shifted out of [m] by [k] places stand with respect to
    one half of the last place kept. *)
Definition shifted_out (m : Z) (k : nat) (r s : bool) : shr_record :=
  match k with
  | O => Build_shr_record m r s
  | S j =>
      Build_shr_record (m / 2 ^ Z.of_nat k) (Z.odd (m / 2 ^ Z.of_nat j))
        (r || s || negb (m mod 2 ^ Z.of_nat j =? 0))
  end.

Lemma mod_pow2_succ (m j : Z) :
  0 <= j ->
  m mod 2 ^ (j + 1) = m mod 2 ^ j + 2 ^ j * (m / 2 ^ j mod 2).
Proof.
  intros Hj. rewrite Z.pow_add_r, Z.pow_1_r by lia.
  rewrite Z.rem_mul_r by (try apply Z.pow_nonzero; lia). reflexivity.
Qed.

Lemma iter_shr_1 (m : Z) (r s : bool) (k : nat) :
  0 <= m ->
  Nat.iter k shr_1 (Build_shr_record m r s) = shifted_out m k r s.
Proof.
  intros Hm. induction k as [|k IH]; [reflexivity|].
  cbn [Nat.iter nat_rect]. change (nat_rect _ _ _ k) with (Nat.iter k shr_1 (Build_shr_record m r s)) .
  rewrite IH. destruct k as [|j].
  - cbn [shifted_out]. rewrite shr_1_spec by exact Hm.
    change (2 ^ Z.of_nat 1) with 2. change (2 ^ Z.of_nat 0) with 1.
    rewrite Z.div_1_r, Z.mod_1_r. cbn. now rewrite orb_false_r.
  - cbn [shifted_out].
    assert (P : 0 < 2 ^ Z.of_nat (S j)) by (apply Z.pow_pos_nonneg; lia).
    assert (Pj : 0 < 2 ^ Z.of_nat j) by (apply Z.pow_pos_nonneg; lia).
    rewrite shr_1_spec by (apply Z.div_pos; lia).
    f_equal.
    + rewrite Z.div_div by lia. f_equal.
      rewrite (Nat2Z.inj_succ (S j)), Z.pow_succ_r by lia. lia.
    + rewrite (Nat2Z.inj_succ j). unfold Z.succ.
      rewrite (mod_pow2_succ m (Z.of_nat j)) by lia.
      pose proof (Z.mod_pos_bound m (2 ^ Z.of_nat j) Pj) as B.
      rewrite Zodd_mod.
      pose proof (Z.mod_pos_bound (m / 2 ^ Z.of_nat j) 2 ltac:(lia)) as B2.
      destruct (Z.eqb_spec (m / 2 ^ Z.of_nat j mod 2) 1) as [E|E].
      * rewrite E. cbn [orb].
        destruct (Z.eqb_spec (m mod 2 ^ Z.of_nat j + 2 ^ Z.of_nat j * 1) 0); [lia|].
        cbn. now rewrite !orb_true_r.
      * assert (E0 : m / 2 ^ Z.of_nat j mod 2 = 0) by lia. rewrite E0.
        rewrite Z.mul_0_r, Z.add_0_r. cbn [orb]. reflexivity.
Qed.

(** [shr] by [k > 0] places. *)
Lemma shr_pos (m : Z) (r s : bool) (e k : Z) :
  0 <= m -> 0 < k ->
  shr (Build_shr_record m r s) e k =
    (shifted_out m (Z.to_nat k) r s, e + k).
Proof.
  intros Hm Hk. destruct k as [|p|p]; try lia.
  unfold shr. rewrite iter_pos_nat, iter_shr_1 by exact Hm.
  reflexivity.
Qed.

Lemma shr_nonpos (mrs : shr_record) (e k : Z) :
  k <= 0 -> shr mrs e k = (mrs, e).
Proof. intros Hk. destruct k as [|p|p]; try lia; reflexivity. Qed.

(** ** Rounding to nearest, ties to even *)

Lemma pow2_pos (k : Z) : 0 <= k -> 0 < 2 ^ k.
Proof. intros H. apply Z.pow_pos_nonneg; lia. Qed.

Lemma pow2_split (a b : Z) : 0 <= a -> 0 <= b -> 2 ^ (a + b) = 2 ^ a * 2 ^ b.
Proof. intros. apply Z.pow_add_r; assumption. Qed.

Definition loc_bits (l : location) : bool * bool :=
  match l with
  | loc_Exact => (false, false)
  | loc_Inexact Lt => (false, true)
  | loc_Inexact Eq => (true, false)
  | loc_Inexact Gt => (true, true)
  end.

Lemma shr_record_of_loc_bits (m : Z) (l : location) :
  shr_record_of_loc m l = Build_shr_record m (fst (loc_bits l)) (snd (loc_bits l)).
Proof. destruct l as [|[]]; reflexivity. Qed.

Lemma round_nearest_even_bounds (m : Z) (l : location) :
  m <= round_nearest_even m l <= m + 1.
Proof.
  destruct l as [|[]]; cbn [round_nearest_even]; try lia.
  destruct (Z.even m); lia.
Qed.

(** The rounded value of a shifted mantissa, in the general case and when
    nothing non-zero was shifted out. *)
Definition rounded (mrs : shr_record) : Z :=
  round_nearest_even (shr_m mrs) (loc_of_shr_record mrs).

Lemma rounded_shifted_bounds (m : Z) (k : nat) (r s : bool) :
  0 <= m ->
  m / 2 ^ Z.of_nat k <= rounded (shifted_out m k r s) <= m / 2 ^ Z.of_nat k + 1.
Proof.
  intros Hm. unfold rounded. destruct k as [|j].
  - cbn [shifted_out shr_m]. change (2 ^ Z.of_nat 0) with 1. rewrite Z.div_1_r.
    apply round_nearest_even_bounds.
  - cbn [shifted_out shr_m]. apply round_nearest_even_bounds.
Qed.

Lemma rounded_shifted_exact (q : Z) (k : nat) :
  0 <= q ->
  rounded (shifted_out (q * 2 ^ Z.of_nat k) k false false) = q.
Proof.
  intros Hq. unfold rounded. destruct k as [|j].
  - cbn [shifted_out shr_m loc_of_shr_record round_nearest_even].
    change (2 ^ Z.of_nat 0) with 1. lia.
  - cbn [shifted_out].
    assert (Pj : 0 < 2 ^ Z.of_nat j) by (apply pow2_pos; lia).
    assert (E : q * 2 ^ Z.of_nat (S j) = (q * 2) * 2 ^ Z.of_nat j).
    { rewrite Nat2Z.inj_succ, Z.pow_succ_r by lia. lia. }
    rewrite Z.div_mul by (apply Z.pow_nonzero; lia).
    rewrite E, Z.div_mul, Z.mod_mul by lia.
    rewrite Z.odd_mul. cbn [Z.odd orb andb negb Z.eqb].
    rewrite andb_false_r. reflexivity.
Qed.

(** Rounding after a shift agrees with [div_nearest_even]. *)
Lemma rounded_shifted_nearest (m : Z) (j : nat) :
  0 <= m ->
  rounded (shifted_out m (S j) false false)
  = div_nearest_even m (2 ^ Z.of_nat (S j)).
Proof.
  intros Hm. unfold rounded, div_nearest_even. cbn [shifted_out shr_m].
  assert (Pj : 0 < 2 ^ Z.of_nat j) by (apply pow2_pos; lia).
  assert (E : 2 ^ Z.of_nat (S j) = 2 * 2 ^ Z.of_nat j)
    by (rewrite Nat2Z.inj_succ, Z.pow_succ_r by lia; reflexivity).
  assert (R : m mod 2 ^ Z.of_nat (S j)
              = m mod 2 ^ Z.of_nat j + 2 ^ Z.of_nat j * (m / 2 ^ Z.of_nat j mod 2)).
  { rewrite Nat2Z.inj_succ. apply mod_pow2_succ. lia. }
  rewrite R, E. clear R E.
  pose proof (Z.mod_pos_bound m (2 ^ Z.of_nat j) Pj) as B.
  pose proof (Z.mod_pos_bound (m / 2 ^ Z.of_nat j) 2 ltac:(lia)) as B2.
  rewrite Zodd_mod. cbn [orb].
  destruct (Z.eqb_spec (m / 2 ^ Z.of_nat j mod 2) 1) as [E1|E1].
  - rewrite E1, Z.mul_1_r.
    destruct (Z.eqb_spec (m mod 2 ^ Z.of_nat j) 0) as [E0|E0]; cbn [negb loc_of_shr_record round_nearest_even].
    + now rewrite E0, Z.add_0_l, Z.compare_refl.
    + destruct (Z.compare_spec (2 * (m mod 2 ^ Z.of_nat j + 2 ^ Z.of_nat j))
                  (2 * 2 ^ Z.of_nat j)); lia.
  - assert (E0 : m / 2 ^ Z.of_nat j mod 2 = 0) by lia.
    rewrite E0, Z.mul_0_r, Z.add_0_r.
    destruct (Z.compare_spec (2 * (m mod 2 ^ Z.of_nat j)) (2 * 2 ^ Z.of_nat j));
      try lia.
    all: destruct (negb _); reflexivity.
Qed.

(** Rounding to nearest is monotone in the numerator. *)
Lemma div_nearest_even_mono (a b d : Z) :
  0 < d -> 0 <= a <= b -> div_nearest_even a d <= div_nearest_even b d.
Proof.
  intros Hd [Ha Hab]. unfold div_nearest_even.
  pose proof (Z.div_mod a d ltac:(lia)) as Da.
  pose proof (Z.div_mod b d ltac:(lia)) as Db.
  pose proof (Z.mod_pos_bound a d Hd) as Ba.
  pose proof (Z.mod_pos_bound b d Hd) as Bb.
  assert (Q : a / d <= b / d) by (apply Z.div_le_mono; lia).
  destruct (Z.eq_dec (a / d) (b / d)) as [E|N].
  - rewrite <- E in *. assert (a mod d <= b mod d) by lia.
    destruct (Z.compare_spec (2 * (a mod d)) d),
             (Z.compare_spec (2 * (b mod d)) d); try lia;
      destruct (Z.even (a / d)); lia.
  - assert (a / d + 1 <= b / d) by lia.
    destruct (Z.compare_spec (2 * (a mod d)) d),
             (Z.compare_spec (2 * (b mod d)) d);
      destruct (Z.even (a / d)), (Z.even (b / d)); lia.
Qed.

Lemma div_nearest_even_bounds (a d : Z) :
  a / d <= div_nearest_even a d <= a / d + 1.
Proof.
  unfold div_nearest_even.
  destruct (2 * (a mod d) ?= d); [destruct (Z.even (a / d))| |]; lia.
Qed.

Lemma div_nearest_even_exact (q d : Z) :
  0 < d -> div_nearest_even (q * d) d = q.
Proof.
  intros Hd. unfold div_nearest_even.
  rewrite Z.div_mul, Z.mod_mul by lia.
  destruct (Z.compare_spec (2 * 0) d); lia.
Qed.

(** ** An upper bound through [binary_round_aux]

    A real number [x >= 0] is handed to the rounding unit as a mantissa
    [mx], an exponent [ex] and the location of [x] in
    [[mx * 2^ex, (mx + 1) * 2^ex)].  When [x] is at most [K * 2^g] and that
    bound lies on the grid the unit rounds to, the rounded value is at most
    [K * 2^g] too. *)

(** [m * 2^e <= K * 2^g], on integers. *)
Definition bounded_by (m e K g : Z) : Prop :=
  if e <=? g then m <= K * 2 ^ (g - e) else m * 2 ^ (e - g) <= K.

(** What [binary_round_aux] builds from a final mantissa and exponent. *)
Definition pack (sx : bool) (m e : Z) : float :=
  match m with
  | 0 => S754_zero sx
  | Zpos p => if e <=? emax - prec then S754_finite sx p e else S754_infinity sx
  | Zneg _ => S754_nan
  end.

Lemma shr_fexp_spec (m e : Z) (l : location) :
  0 <= m ->
  let k := fexp prec emax (Zdigits2 m + e) - e in
  shr_fexp prec emax m e l =
    if 0 <? k
    then (shifted_out m (Z.to_nat k) (fst (loc_bits l)) (snd (loc_bits l)), e + k)
    else (shr_record_of_loc m l, e).
Proof.
  intros Hm k. unfold shr_fexp. fold k. rewrite shr_record_of_loc_bits.
  destruct (Z.ltb_spec 0 k).
  - now apply shr_pos.
  - now apply shr_nonpos.
Qed.

(** The first rounding step. *)
Lemma first_round_le (mx ex : Z) (lx : location) (K g : Z) :
  0 <= mx ->
  let e1 := Z.max ex (fexp prec emax (Zdigits2 mx + ex)) in
  e1 <= g ->
  mx < K * 2 ^ (g - ex) \/ (mx = K * 2 ^ (g - ex) /\ lx = loc_Exact) ->
  exists mrs,
    shr_fexp prec emax mx ex lx = (mrs, e1)
    /\ 0 <= rounded mrs <= K * 2 ^ (g - e1).
Proof.
  intros Hm e1 Hg HX. rewrite shr_fexp_spec by exact Hm. cbv zeta.
  set (k := fexp prec emax (Zdigits2 mx + ex) - ex) in *.
  destruct (Z.ltb_spec 0 k) as [Hk|Hk].
  - assert (E1 : e1 = ex + k) by (unfold e1, k; lia).
    eexists. split; [rewrite E1; reflexivity|].
    pose proof (rounded_shifted_bounds mx (Z.to_nat k) (fst (loc_bits lx))
                  (snd (loc_bits lx)) Hm) as B.
    rewrite Z2Nat.id in B by lia.
    assert (Pk : 0 < 2 ^ k) by (apply pow2_pos; lia).
    assert (S : 2 ^ (g - ex) = 2 ^ (g - e1) * 2 ^ k).
    { rewrite <- pow2_split by lia. f_equal. lia. }
    assert (0 <= mx / 2 ^ k) by (apply Z.div_pos; lia).
    split; [lia|].
    destruct HX as [HX|[HX ->]].
    + assert (mx / 2 ^ k < K * 2 ^ (g - e1)); [|lia].
      apply Z.div_lt_upper_bound; [exact Pk|]. rewrite S in HX. lia.
    + cbn [loc_bits fst snd].
      replace mx with ((K * 2 ^ (g - e1)) * 2 ^ Z.of_nat (Z.to_nat k)).
      * rewrite rounded_shifted_exact; [lia|].
        assert (0 < 2 ^ (g - e1)) by (apply pow2_pos; lia).
        assert (0 <= K); [|nia].
        assert (0 < 2 ^ (g - ex)) by (apply pow2_pos; lia). nia.
      * rewrite Z2Nat.id by lia. rewrite HX, S. lia.
  - assert (E1 : e1 = ex) by (unfold e1, k in *; lia).
    eexists. split; [rewrite E1; reflexivity|]. rewrite E1.
    unfold rounded.
    pose proof (round_nearest_even_bounds mx lx) as B.
    destruct lx as [|c]; [|destruct c]; cbn [shr_record_of_loc shr_m loc_of_shr_record] in *;
      destruct HX as [HX|[HX HE]]; try discriminate HE;
      cbn [round_nearest_even] in *; lia.
Qed.

(** The second step shifts the rounded mantissa once more, if it has
    grown; the value can only shrink. *)
Lemma second_round_le (m1 e1 : Z) :
  0 <= m1 ->
  exists mrs e2,
    shr_fexp prec emax m1 e1 loc_Exact = (mrs, e2)
    /\ e1 <= e2
    /\ shr_m mrs = m1 / 2 ^ (e2 - e1).
Proof.
  intros Hm. rewrite shr_fexp_spec by exact Hm. cbv zeta.
  set (k := fexp prec emax (Zdigits2 m1 + e1) - e1).
  destruct (Z.ltb_spec 0 k) as [Hk|Hk].
  - eexists _, _. split; [reflexivity|]. split; [lia|].
    replace (e1 + k - e1) with k by lia.
    destruct (Z.to_nat k) as [|j] eqn:E; [lia|].
    cbn [shifted_out shr_m]. rewrite <- E, Z2Nat.id by lia. reflexivity.
  - eexists _, _. split; [reflexivity|]. split; [lia|].
    rewrite Z.sub_diag. cbn [shr_record_of_loc shr_m].
    change (2 ^ 0) with 1. now rewrite Z.div_1_r.
Qed.

Lemma bounded_by_shift (m1 e1 e2 K g : Z) :
  0 <= m1 -> e1 <= e2 -> e1 <= g ->
  m1 <= K * 2 ^ (g - e1) ->
  bounded_by (m1 / 2 ^ (e2 - e1)) e2 K g.
Proof.
  intros Hm He Hg Hb. unfold bounded_by.
  assert (P : 0 < 2 ^ (e2 - e1)) by (apply pow2_pos; lia).
  destruct (Z.leb_spec e2 g) as [L|L].
  - assert (S : 2 ^ (g - e1) = 2 ^ (g - e2) * 2 ^ (e2 - e1)).
    { rewrite <- pow2_split by lia. f_equal. lia. }
    apply Z.lt_succ_r. apply Z.div_lt_upper_bound; [exact P|].
    rewrite S in Hb. lia.
  - assert (S : 2 ^ (e2 - e1) = 2 ^ (e2 - g) * 2 ^ (g - e1)).
    { rewrite <- pow2_split by lia. f_equal. lia. }
    assert (Pg : 0 < 2 ^ (g - e1)) by (apply pow2_pos; lia).
    assert (Pe : 0 < 2 ^ (e2 - g)) by (apply pow2_pos; lia).
    pose proof (Z.mul_div_le m1 (2 ^ (e2 - e1)) P) as D.
    rewrite S in D at 1.
    assert (m1 / 2 ^ (e2 - e1) * 2 ^ (e2 - g) * 2 ^ (g - e1) <= K * 2 ^ (g - e1)) by lia.
    nia.
Qed.

Lemma binary_round_aux_le (sx : bool) (mx ex : Z) (lx : location) (K g : Z) :
  0 <= mx ->
  let e1 := Z.max ex (fexp prec emax (Zdigits2 mx + ex)) in
  e1 <= g ->
  mx < K * 2 ^ (g - ex) \/ (mx = K * 2 ^ (g - ex) /\ lx = loc_Exact) ->
  exists m2 e2,
    binary_round_aux prec emax sx mx ex lx = pack sx m2 e2
    /\ 0 <= m2 /\ e1 <= e2 /\ bounded_by m2 e2 K g.
Proof.
  intros Hm e1 Hg HX.
  destruct (first_round_le mx ex lx K g Hm Hg HX) as (mrs & F & B).
  fold e1 in F, B.
  destruct (second_round_le (rounded mrs) e1 ltac:(lia)) as (mrs2 & e2 & S & He & M).
  exists (shr_m mrs2), e2. unfold binary_round_aux. rewrite F.
  fold (rounded mrs). rewrite S. split; [reflexivity|].
  rewrite M. split; [apply Z.div_pos; [lia | apply pow2_pos; lia]|].
  split; [exact He|]. apply bounded_by_shift; lia.
Qed.

(** ** The float nearest to a positive integer *)

Lemma fexp_eq (x : Z) : fexp prec emax x = Z.max (x - 53) (-1074).
Proof. reflexivity. Qed.

Lemma iter_xO (p k : positive) : Zpos (Pos.iter xO p k) = Zpos p * 2 ^ Zpos k.
Proof.
  induction k as [|k IH] using Pos.peano_ind.
  - cbn [Pos.iter]. rewrite Pos2Z.inj_xO. change (2 ^ 1) with 2. lia.
  - rewrite Pos.iter_succ, Pos2Z.inj_xO, IH, Pos2Z.inj_succ, Z.pow_succ_r by lia.
    lia.
Qed.

Lemma Zdigits2_bounds (m : Z) :
  0 < m -> 2 ^ (Zdigits2 m - 1) <= m < 2 ^ Zdigits2 m.
Proof.
  intros H. destruct m as [|p|p]; try lia. apply digits2_pos_bounds.
Qed.

Lemma Zdigits2_unique (m d : Z) :
  2 ^ (d - 1) <= m < 2 ^ d -> 0 < m -> Zdigits2 m = d.
Proof.
  intros H Hm. destruct m as [|p|p]; try lia. now apply digits2_pos_unique.
Qed.

Lemma Zdigits2_le (m w : Z) : 0 <= w -> 0 <= m < 2 ^ w -> Zdigits2 m <= w.
Proof.
  intros Hw [H0 H]. destruct (Z.eq_dec m 0) as [->|N]; [cbn; lia|].
  pose proof (Zdigits2_bounds m ltac:(lia)) as [B _].
  destruct (Z_lt_le_dec w (Zdigits2 m)) as [L|L]; [|exact L].
  assert (2 ^ w <= 2 ^ (Zdigits2 m - 1)) by (apply Z.pow_le_mono_r; lia). lia.
Qed.

(** The mantissa and exponent of the float nearest to [z > 0]: an integer
    of at most 53 bits is kept exactly, a longer one loses its low bits,
    rounded to nearest (ties to even). *)
Definition int_round (z : Z) : Z * Z :=
  let d := Zdigits2 z in
  if d <=? 53 then (z * 2 ^ (53 - d), d - 53)
  else
    let m1 := div_nearest_even z (2 ^ (d - 53)) in
    if m1 =? 2 ^ 53 then (2 ^ 52, d - 53 + 1) else (m1, d - 53).

(** Rounding a mantissa that is already canonical changes nothing. *)
Lemma binary_round_aux_canonical (sx : bool) (m e : Z) :
  2 ^ 52 <= m < 2 ^ 53 -> -1074 <= e ->
  binary_round_aux prec emax sx m e loc_Exact = pack sx m e.
Proof.
  intros Hm He. assert (D : Zdigits2 m = 53).
  { apply Zdigits2_unique; [exact Hm|].
    change (2 ^ 52) with 4503599627370496 in Hm. lia. }
  assert (M0 : 0 <= m) by (change (2 ^ 52) with 4503599627370496 in Hm; lia).
  unfold binary_round_aux.
  rewrite shr_fexp_spec by exact M0. cbv zeta.
  rewrite D, fexp_eq.
  destruct (Z.ltb_spec 0 (Z.max (53 + e - 53) (-1074) - e)); [lia|].
  cbn [shr_record_of_loc shr_m loc_of_shr_record round_nearest_even].
  rewrite shr_fexp_spec by exact M0. cbv zeta.
  rewrite D, fexp_eq.
  destruct (Z.ltb_spec 0 (Z.max (53 + e - 53) (-1074) - e)); [lia|].
  reflexivity.
Qed.

Lemma nearest_float_pos (p : positive) :
  nearest_float (Zpos p) =
    pack false (fst (int_round (Zpos p))) (snd (int_round (Zpos p))).
Proof.
  unfold nearest_float, binary_normalize, binary_round, int_round.
  pose proof (digits2_pos_bounds p) as B.
  cbn [Zdigits2]. set (d := Zpos (digits2_pos p)) in *.
  assert (Hd : 0 < d) by (unfold d; lia).
  rewrite Z.add_0_r, fexp_eq.
  replace (Z.max (d - 53) (-1074)) with (d - 53) by lia.
  destruct (Z.leb_spec d 53) as [L|L]; cbn [fst snd].
  - (* at most 53 bits: aligned to the left, then kept *)
    unfold shl_align. rewrite Z.sub_0_r.
    destruct (d - 53) as [|q|q] eqn:E; try lia.
    + replace (53 - d) with 0 by lia. rewrite Z.mul_1_r.
      replace d with 53 in B by lia.
      apply binary_round_aux_canonical; [exact B | lia].
    + assert (Q : Zpos q = 53 - d) by lia. rewrite iter_xO, Q.
      apply binary_round_aux_canonical; [|lia].
      assert (HS : 2 ^ 53 = 2 ^ d * 2 ^ (53 - d))
        by (rewrite <- pow2_split by lia; f_equal; lia).
      assert (HS' : 2 ^ 52 = 2 ^ (d - 1) * 2 ^ (53 - d))
        by (rewrite <- pow2_split by lia; f_equal; lia).
      assert (0 < 2 ^ (53 - d)) by (apply pow2_pos; lia).
      rewrite HS, HS'. nia.
  - (* more than 53 bits: shifted right and rounded *)
    unfold shl_align. rewrite Z.sub_0_r.
    set (k := d - 53) in *. assert (Hk : 0 < k) by (unfold k; lia).
    replace (match k with Z.neg d0 => (Pos.iter xO p d0, k) | _ => (p, 0) end)
      with (p, 0) by (destruct k; try lia; reflexivity).
    assert (Pk : 0 < 2 ^ k) by (apply pow2_pos; lia).
    assert (HS : 2 ^ d = 2 ^ 53 * 2 ^ k)
      by (rewrite <- pow2_split by lia; f_equal; unfold k; lia).
    assert (HS' : 2 ^ (d - 1) = 2 ^ 52 * 2 ^ k)
      by (rewrite <- pow2_split by lia; f_equal; unfold k; lia).
    assert (Q : 2 ^ 52 <= Zpos p / 2 ^ k < 2 ^ 53).
    { split; [apply Z.div_le_lower_bound | apply Z.div_lt_upper_bound]; lia. }
    unfold binary_round_aux.
    rewrite shr_fexp_spec by lia. cbv zeta. cbn [Zdigits2]. fold d.
    rewrite Z.add_0_r, fexp_eq.
    replace (Z.max (d - 53) (-1074) - 0) with k by (unfold k; lia).
    destruct (Z.ltb_spec 0 k); [|lia]. cbn [loc_bits fst snd].
    destruct (Z.to_nat k) as [|j] eqn:Ej; [lia|].
    fold (rounded (shifted_out (Zpos p) (S j) false false)).
    rewrite rounded_shifted_nearest by lia.
    rewrite <- Ej, Z2Nat.id by lia.
    pose proof (div_nearest_even_bounds (Zpos p) (2 ^ k)) as R.
    set (m1 := div_nearest_even (Zpos p) (2 ^ k)) in *.
    rewrite Z.add_0_l.
    destruct (Z.eqb_spec m1 (2 ^ 53)) as [E|N]; cbn [fst snd].
    + rewrite E. rewrite shr_fexp_spec by (apply Z.pow_nonneg; lia). cbv zeta.
      replace (Zdigits2 (2 ^ 53)) with 54 by reflexivity.
      rewrite fexp_eq.
      replace (Z.max (54 + k - 53) (-1074) - k) with 1 by lia.
      cbn [Z.ltb Z.compare Z.to_nat Pos.to_nat Pos.iter_op Nat.add shifted_out shr_m].
      reflexivity.
    + assert (M : 2 ^ 52 <= m1 < 2 ^ 53) by lia.
      assert (D1 : Zdigits2 m1 = 53).
      { apply Zdigits2_unique; [exact M|].
        change (2 ^ 52) with 4503599627370496 in M. lia. }
      rewrite shr_fexp_spec
        by (change (2 ^ 52) with 4503599627370496 in M; lia).
      cbv zeta. rewrite D1, fexp_eq.
      destruct (Z.ltb_spec 0 (Z.max (53 + k - 53) (-1074) - k)); [lia|].
      reflexivity.
Qed.

(** ** Conversion from [int] is monotone *)

(** The number of low bits an integer loses in the conversion. *)
Definition lost_bits (z : Z) : Z := Z.max (Zdigits2 z - 53) 0.

(** The mantissa is normal, and the value, scaled by [2^52], is the
    integer rounded at its lost bits. *)
Lemma int_round_spec (z : Z) :
  0 < z ->
  let m := fst (int_round z) in
  let e := snd (int_round z) in
  let k := lost_bits z in
  2 ^ 52 <= m < 2 ^ 53
  /\ -52 <= e
  /\ m * 2 ^ (e + 52) = div_nearest_even z (2 ^ k) * 2 ^ (k + 52).
Proof.
  intros Hz. cbv zeta. unfold int_round, lost_bits.
  pose proof (Zdigits2_bounds z Hz) as B.
  set (d := Zdigits2 z) in *.
  assert (Hd : 0 < d).
  { destruct (Z_lt_le_dec 0 d); [assumption|].
    assert (2 ^ d <= 2 ^ 0) by (destruct (Z_lt_le_dec d 0);
      [rewrite Z.pow_neg_r by lia; cbn; lia | apply Z.pow_le_mono_r; lia]).
    change (2 ^ 0) with 1 in *. lia. }
  destruct (Z.leb_spec d 53) as [L|L]; cbn [fst snd].
  - replace (Z.max (d - 53) 0) with 0 by lia.
    change (2 ^ 0) with 1.
    replace (div_nearest_even z 1) with z
      by (unfold div_nearest_even; now rewrite Z.div_1_r, Z.mod_1_r).
    assert (HS : 2 ^ 53 = 2 ^ d * 2 ^ (53 - d))
      by (rewrite <- pow2_split by lia; f_equal; lia).
    assert (HS' : 2 ^ 52 = 2 ^ (d - 1) * 2 ^ (53 - d))
      by (rewrite <- pow2_split by lia; f_equal; lia).
    assert (0 < 2 ^ (53 - d)) by (apply pow2_pos; lia).
    split; [rewrite HS, HS'; nia|]. split; [lia|].
    rewrite <- Z.mul_assoc, <- pow2_split by lia. do 2 f_equal. lia.
  - set (k := d - 53) in *. assert (Hk : 0 < k) by (unfold k; lia).
    replace (Z.max k 0) with k by lia.
    assert (Pk : 0 < 2 ^ k) by (apply pow2_pos; lia).
    assert (HS : 2 ^ d = 2 ^ 53 * 2 ^ k)
      by (rewrite <- pow2_split by lia; f_equal; unfold k; lia).
    assert (HS' : 2 ^ (d - 1) = 2 ^ 52 * 2 ^ k)
      by (rewrite <- pow2_split by lia; f_equal; unfold k; lia).
    assert (Q : 2 ^ 52 <= z / 2 ^ k < 2 ^ 53).
    { split; [apply Z.div_le_lower_bound | apply Z.div_lt_upper_bound]; lia. }
    pose proof (div_nearest_even_bounds z (2 ^ k)) as R.
    set (m1 := div_nearest_even z (2 ^ k)) in *.
    destruct (Z.eqb_spec m1 (2 ^ 53)) as [E|N]; cbn [fst snd].
    + split; [change (2 ^ 52) with 4503599627370496;
              change (2 ^ 53) with 9007199254740992; lia|].
      split; [lia|]. rewrite E.
      replace (k + 1 + 52) with (1 + (k + 52)) by lia.
      rewrite (pow2_split 1 (k + 52)) by lia.
      change (2 ^ 53) with (2 ^ 52 * 2 ^ 1). lia.
    + split; [lia|]. split; [lia | reflexivity].
Qed.

Lemma Zdigits2_mono (a b : Z) : 0 < a <= b -> Zdigits2 a <= Zdigits2 b.
Proof.
  intros [Ha Hab]. pose proof (Zdigits2_bounds a Ha) as [A _].
  pose proof (Zdigits2_bounds b ltac:(lia)) as [_ B].
  destruct (Z_lt_le_dec (Zdigits2 b) (Zdigits2 a)) as [L|L]; [|exact L].
  assert (2 ^ Zdigits2 b <= 2 ^ (Zdigits2 a - 1))
    by (apply Z.pow_le_mono_r; lia).
  lia.
Qed.

Lemma int_round_mono (a b : Z) :
  0 < a <= b ->
  fst (int_round a) * 2 ^ (snd (int_round a) + 52)
  <= fst (int_round b) * 2 ^ (snd (int_round b) + 52).
Proof.
  intros [Ha Hab].
  destruct (int_round_spec a Ha) as (_ & _ & ->).
  destruct (int_round_spec b ltac:(lia)) as (_ & _ & ->).
  pose proof (Zdigits2_mono a b ltac:(lia)) as D.
  pose proof (Zdigits2_bounds a Ha) as [_ Ba].
  pose proof (Zdigits2_bounds b ltac:(lia)) as [Bb _].
  unfold lost_bits. set (da := Zdigits2 a) in *. set (db := Zdigits2 b) in *.
  set (ka := Z.max (da - 53) 0). set (kb := Z.max (db - 53) 0).
  assert (Pa : 0 < 2 ^ ka) by (apply pow2_pos; lia).
  assert (Pb : 0 < 2 ^ kb) by (apply pow2_pos; lia).
  destruct (Z.eq_dec ka kb) as [E|N].
  - rewrite E. apply Z.mul_le_mono_nonneg_r; [apply Z.pow_nonneg; lia|].
    apply div_nearest_even_mono; lia.
  - assert (L : ka + 1 <= kb) by lia.
    assert (kb = db - 53) by lia.
    assert (A : div_nearest_even a (2 ^ ka) <= 2 ^ 53).
    { pose proof (div_nearest_even_bounds a (2 ^ ka)) as [_ R].
      assert (a / 2 ^ ka < 2 ^ 53); [|lia].
      apply Z.div_lt_upper_bound; [exact Pa|].
      rewrite <- pow2_split by lia.
      assert (2 ^ da <= 2 ^ (ka + 53)) by (apply Z.pow_le_mono_r; lia). lia. }
    assert (B : 2 ^ 52 <= div_nearest_even b (2 ^ kb)).
    { pose proof (div_nearest_even_bounds b (2 ^ kb)) as [R _].
      assert (2 ^ 52 <= b / 2 ^ kb); [|lia].
      apply Z.div_le_lower_bound; [exact Pb|].
      rewrite <- pow2_split by lia.
      replace (kb + 52) with (db - 1) by lia. exact Bb. }
    assert (P : 0 < 2 ^ (ka + 52)) by (apply pow2_pos; lia).
    assert (HS : 2 ^ (kb + 52) = 2 ^ (kb - ka) * 2 ^ (ka + 52))
      by (rewrite <- pow2_split by lia; f_equal; lia).
    assert (T : 2 ^ 1 <= 2 ^ (kb - ka)) by (apply Z.pow_le_mono_r; lia).
    change (2 ^ 1) with 2 in T.
    change (2 ^ 53) with (2 * 2 ^ 52) in A.
    assert (0 < 2 ^ 52) by (apply pow2_pos; lia).
    rewrite HS. nia.
Qed.

(** [float_of_int] on a non-negative integer: the result is the zero or a
    positive finite float. *)
Lemma nearest_float_zero : nearest_float 0 = S754_zero false.
Proof. reflexivity. Qed.

Lemma float_of_int_pos (z : Z) (f : float) :
  0 < z -> float_of_int z = Ok f ->
  exists m e,
    f = S754_finite false m e
    /\ Zpos m = fst (int_round z) /\ e = snd (int_round z) /\ e <= 971.
Proof.
  intros Hz. unfold float_of_int. destruct z as [|p|p]; try lia.
  rewrite nearest_float_pos.
  destruct (int_round_spec (Zpos p) Hz) as (M & _ & _).
  destruct (fst (int_round (Zpos p))) as [|m|m] eqn:Em;
    try (change (2 ^ 52) with 4503599627370496 in M; lia).
  unfold pack. change (emax - prec) with 971.
  destruct (Z.leb_spec (snd (int_round (Zpos p))) 971) as [L|L].
  - intros H. injection H as <-. exists m, (snd (int_round (Zpos p))).
    repeat split; try reflexivity; lia.
  - discriminate.
Qed.

(** An integer below a convertible one is convertible, to a float that is
    not larger. *)
Lemma float_of_int_mono (a b : Z) (fb : float) :
  0 < a <= b -> float_of_int b = Ok fb ->
  exists ma ea mb eb,
    float_of_int a = Ok (S754_finite false ma ea)
    /\ fb = S754_finite false mb eb
    /\ -52 <= ea /\ -52 <= eb
    /\ Zpos ma * 2 ^ (ea + 52) <= Zpos mb * 2 ^ (eb + 52).
Proof.
  intros [Ha Hab] Fb.
  destruct (float_of_int_pos b fb ltac:(lia) Fb) as (mb & eb & -> & Mb & Eb & Lb).
  pose proof (int_round_mono a b ltac:(lia)) as Mo.
  destruct (int_round_spec a Ha) as (Ma & Ea & _).
  destruct (int_round_spec b ltac:(lia)) as (Mb' & Eb' & _).
  rewrite <- Mb, <- Eb in *.
  assert (P52 : 0 < 2 ^ 52) by (apply pow2_pos; lia).
  destruct (fst (int_round a)) as [|ma|ma] eqn:Em; try lia.
  set (ea := snd (int_round a)) in *.
  assert (Le : ea <= eb).
  { destruct (Z_lt_le_dec eb ea) as [G|G]; [|exact G]. exfalso.
    assert (HS : 2 ^ (ea + 52) = 2 ^ (ea - eb) * 2 ^ (eb + 52))
      by (rewrite <- pow2_split by lia; f_equal; lia).
    assert (T : 2 ^ 1 <= 2 ^ (ea - eb)) by (apply Z.pow_le_mono_r; lia).
    change (2 ^ 1) with 2 in T.
    assert (0 < 2 ^ (eb + 52)) by (apply pow2_pos; lia).
    change (2 ^ 53) with (2 * 2 ^ 52) in Mb'. rewrite HS in Mo. nia. }
  exists ma, ea, mb, eb. split; [|repeat split; try assumption; lia].
  unfold float_of_int. destruct a as [|p|p]; try lia.
  rewrite nearest_float_pos, Em. fold ea. unfold pack.
  change (emax - prec) with 971.
  destruct (Z.leb_spec ea 971); [reflexivity | lia].
Qed.

(** ** Quotients and products of bounded floats *)

(** A float in [[0, 1]]. *)
Definition unit_float (x : float) : Prop :=
  x = S754_zero false
  \/ exists m e, x = S754_finite false m e /\ e <= 0 /\ Zpos m <= 2 ^ (- e).

Lemma div_eucl_eq (a b : Z) : Z.div_eucl a b = (a / b, a mod b).
Proof. unfold Z.div, Z.modulo. now destruct (Z.div_eucl a b). Qed.

Lemma new_location_0 (k : Z) : new_location k 0 = loc_Exact.
Proof.
  unfold new_location, new_location_even, new_location_odd.
  now destruct (Z.even k).
Qed.

Lemma SFdiv_core_spec (ma mb : positive) (ea eb : Z) :
  let e' := Z.min (fexp prec emax (Zdigits2 (Zpos ma) + ea
                                   - (Zdigits2 (Zpos mb) + eb))) (ea - eb) in
  let s := ea - eb - e' in
  SFdiv_core_binary prec emax (Zpos ma) ea (Zpos mb) eb =
    (Zpos ma * 2 ^ s / Zpos mb, e',
     new_location (Zpos mb) ((Zpos ma * 2 ^ s) mod Zpos mb)).
Proof.
  cbv zeta. unfold SFdiv_core_binary.
  set (e' := Z.min _ _). set (s := ea - eb - e').
  assert (Hs : 0 <= s) by (unfold s, e'; lia).
  replace (match s with 0 => Zpos ma | Zpos _ => Z.shiftl (Zpos ma) s | Zneg _ => 0 end)
    with (Zpos ma * 2 ^ s).
  - now rewrite div_eucl_eq.
  - clearbody s. destruct s as [|p|p]; try lia.
    now rewrite Z.shiftl_mul_pow2 by lia.
Qed.

(** A quotient of two positive floats, the first not above the second, is
    in [[0, 1]]. *)
Lemma fquo_unit (ma mb : positive) (ea eb : Z) :
  -52 <= ea -> -52 <= eb ->
  Zpos ma * 2 ^ (ea + 52) <= Zpos mb * 2 ^ (eb + 52) ->
  unit_float (fquo (S754_finite false ma ea) (S754_finite false mb eb)).
Proof.
  intros Ha Hb Hle. unfold fquo, SFdiv.
  rewrite SFdiv_core_spec. cbv zeta. cbn [xorb].
  pose proof (Zdigits2_bounds (Zpos ma) ltac:(lia)) as [Da _].
  pose proof (Zdigits2_bounds (Zpos mb) ltac:(lia)) as [_ Db].
  set (d1 := Zdigits2 (Zpos ma)) in *. set (d2 := Zdigits2 (Zpos mb)) in *.
  assert (Hd1 : 0 < d1) by (unfold d1; cbn; lia).
  assert (Hd2 : 0 < d2) by (unfold d2; cbn; lia).
  assert (D : d1 + ea <= d2 + eb).
  { destruct (Z_lt_le_dec (d2 + eb) (d1 + ea)) as [G|G]; [|exact G]. exfalso.
    assert (P1 : 2 ^ (d1 - 1) * 2 ^ (ea + 52) <= Zpos ma * 2 ^ (ea + 52))
      by (apply Z.mul_le_mono_nonneg_r; [apply Z.pow_nonneg|]; lia).
    assert (P2 : Zpos mb * 2 ^ (eb + 52) < 2 ^ d2 * 2 ^ (eb + 52))
      by (apply Z.mul_lt_mono_pos_r; [apply pow2_pos|]; lia).
    rewrite <- pow2_split in P1, P2 by lia.
    assert (2 ^ (d2 + (eb + 52)) <= 2 ^ (d1 - 1 + (ea + 52)))
      by (apply Z.pow_le_mono_r; lia).
    lia. }
  rewrite fexp_eq.
  set (e' := Z.min (Z.max (d1 + ea - (d2 + eb) - 53) (-1074)) (ea - eb)).
  assert (He' : e' <= -53) by (unfold e'; lia).
  set (s := ea - eb - e'). assert (Hs : 0 <= s) by (unfold s, e'; lia).
  set (w := - e'). assert (Hw : 53 <= w) by (unfold w; lia).
  set (a := Zpos ma * 2 ^ s).
  assert (Pw : 0 < 2 ^ w) by (apply pow2_pos; lia).
  assert (A : a <= Zpos mb * 2 ^ w).
  { unfold a. destruct (Z_le_gt_dec ea eb) as [L|G].
    - assert (HS : 2 ^ (eb + 52) = 2 ^ (eb - ea) * 2 ^ (ea + 52))
        by (rewrite <- pow2_split by lia; f_equal; lia).
      assert (HW : 2 ^ w = 2 ^ (eb - ea) * 2 ^ s)
        by (rewrite <- pow2_split by lia; f_equal; unfold w, s; lia).
      assert (0 < 2 ^ (ea + 52)) by (apply pow2_pos; lia).
      assert (0 < 2 ^ s) by (apply pow2_pos; lia).
      rewrite HS in Hle. rewrite HW.
      assert (Zpos ma <= Zpos mb * 2 ^ (eb - ea)) by nia. nia.
    - assert (HS : 2 ^ (ea + 52) = 2 ^ (ea - eb) * 2 ^ (eb + 52))
        by (rewrite <- pow2_split by lia; f_equal; lia).
      assert (HW : 2 ^ s = 2 ^ (ea - eb) * 2 ^ w)
        by (rewrite <- pow2_split by (unfold w; lia); f_equal; unfold w, s; lia).
      assert (0 < 2 ^ (eb + 52)) by (apply pow2_pos; lia).
      rewrite HS in Hle. rewrite HW.
      assert (Zpos ma * 2 ^ (ea - eb) <= Zpos mb) by nia. nia. }
  assert (A0 : 0 <= a) by (unfold a; apply Z.mul_nonneg_nonneg;
    [lia | apply Z.pow_nonneg; lia]).
  assert (Q : 0 <= a / Zpos mb <= 2 ^ w).
  { split; [apply Z.div_pos; lia|].
    apply Z.lt_succ_r, Z.div_lt_upper_bound; lia. }
  destruct (binary_round_aux_le false (a / Zpos mb) e'
              (new_location (Zpos mb) (a mod Zpos mb)) 1 0) as (m2 & e2 & -> & M0 & E & B).
  - lia.
  - rewrite fexp_eq.
    assert (Zdigits2 (a / Zpos mb) <= w + 1).
    { apply Zdigits2_le; [lia|]. rewrite (pow2_split w 1) by lia.
      change (2 ^ 1) with 2. lia. }
    assert (w = - e') by reflexivity. lia.
  - rewrite Z.mul_1_l, Z.sub_0_l. fold w.
    destruct (Z.eq_dec (a / Zpos mb) (2 ^ w)) as [E|N]; [right | left; lia].
    split; [exact E|].
    pose proof (Z.div_mod a (Zpos mb) ltac:(lia)) as DM.
    pose proof (Z.mod_pos_bound a (Zpos mb) ltac:(lia)) as MB.
    rewrite E in DM.
    replace (a mod Zpos mb) with 0 by lia. apply new_location_0.
  - unfold bounded_by in B. destruct m2 as [|p|p]; try lia.
    + now left.
    + right. destruct (Z.leb_spec e2 0) as [L|L].
      * exists p, e2. unfold pack. change (emax - prec) with 971.
        destruct (Z.leb_spec e2 971); [|lia].
        rewrite Z.mul_1_l, Z.sub_0_l in B. auto.
      * exfalso. rewrite Z.sub_0_r in B.
        assert (2 ^ 1 <= 2 ^ e2) by (apply Z.pow_le_mono_r; lia).
        change (2 ^ 1) with 2 in *. nia.
Qed.

(** The product of a float in [[0, 1]] and the float of a small integer
    [K] has an integer part in [[0, K]]. *)
Lemma int_of_fmul_unit (x : float) (K : Z) (mc : positive) (ec : Z) :
  unit_float x ->
  0 < K < 2 ^ 53 -> ec <= 0 -> Zpos mc = K * 2 ^ (- ec) ->
  exists k,
    int_of_float (fmul x (S754_finite false mc ec)) = Ok k /\ 0 <= k <= K
    /\ nonneg_finite (fmul x (S754_finite false mc ec)) = true.
Proof.
  intros [->|(m & e & -> & He & Hm)] HK Hec Hmc.
  - exists 0. split; [reflexivity | split; [lia | reflexivity]].
  - unfold fmul, SFmul. cbn [xorb].
    assert (Pe : 0 < 2 ^ (- e)) by (apply pow2_pos; lia).
    assert (Pc : 0 < 2 ^ (- ec)) by (apply pow2_pos; lia).
    assert (HS : 2 ^ (0 - (e + ec)) = 2 ^ (- e) * 2 ^ (- ec))
      by (rewrite <- pow2_split by lia; f_equal; lia).
    assert (X : Zpos (m * mc) <= K * 2 ^ (0 - (e + ec))).
    { rewrite Pos2Z.inj_mul, Hmc, HS. nia. }
    destruct (binary_round_aux_le false (Zpos (m * mc)) (e + ec) loc_Exact K 0)
      as (m2 & e2 & -> & M0 & E & B).
    + lia.
    + rewrite fexp_eq.
      assert (Zdigits2 (Zpos (m * mc)) <= 53 - (e + ec)); [|lia].
      apply Zdigits2_le; [lia|]. split; [lia|].
      replace (53 - (e + ec)) with (53 + (0 - (e + ec))) by lia.
      rewrite pow2_split by lia.
      assert (0 < 2 ^ (0 - (e + ec))) by (apply pow2_pos; lia). nia.
    + destruct (Z.eq_dec (Zpos (m * mc)) (K * 2 ^ (0 - (e + ec)))); [right | left]; auto.
      lia.
    + unfold bounded_by in B. destruct m2 as [|p|p]; try lia.
      * exists 0. split; [reflexivity | split; [lia | reflexivity]].
      * unfold pack. change (emax - prec) with 971.
        assert (P53 : 2 ^ 53 = 9007199254740992) by reflexivity.
        destruct (Z.leb_spec e2 0) as [L|L].
        -- destruct (Z.leb_spec e2 971); [|lia].
           cbn [int_of_float nonneg_finite negb]. eexists.
           split; [reflexivity|]. split; [|reflexivity].
           assert (P : 0 < 2 ^ (0 - e2)) by (apply pow2_pos; lia).
           destruct (Z.eq_dec e2 0) as [->|N].
           ++ rewrite truncate_pos_exp by lia. change (2 ^ 0) with 1.
              change (2 ^ (0 - 0)) with 1 in B. lia.
           ++ rewrite truncate_neg_exp by lia. rewrite Z.sub_0_l in B, P.
              split; [apply Z.div_pos; lia|].
              apply Z.lt_succ_r, Z.div_lt_upper_bound; lia.
        -- rewrite Z.sub_0_r in B.
           assert (P : 0 < 2 ^ e2) by (apply pow2_pos; lia).
           assert (e2 <= 971).
           { destruct (Z_le_gt_dec e2 971); [assumption|]. exfalso.
             assert (2 ^ 53 <= 2 ^ e2) by (apply Z.pow_le_mono_r; lia). nia. }
           destruct (Z.leb_spec e2 971); [|lia].
           cbn [int_of_float nonneg_finite negb]. eexists.
           split; [reflexivity|]. split; [|reflexivity].
           rewrite truncate_pos_exp by lia. nia.
Qed.

Lemma nearest_float_10 :
  nearest_float 10 = S754_finite false 5629499534213120 (-49).
Proof. vm_compute. reflexivity. Qed.

Lemma nearest_float_100 :
  nearest_float 100 = S754_finite false 7036874417766400 (-46).
Proof. vm_compute. reflexivity. Qed.

Lemma int_of_float_nonneg (t : float) :
  nonneg_finite t = true -> exists secs, int_of_float t = Ok secs /\ 0 <= secs.
Proof.
  destruct t as [s|s| |s m e]; try discriminate.
  - intros _. exists 0. split; [reflexivity | lia].
  - intros N. destruct s; [discriminate N|]. exists (truncate false m e).
    split; [reflexivity|]. destruct (Z_lt_le_dec e 0).
    + rewrite truncate_neg_exp by lia. apply Z.div_pos; [lia|].
      apply Z.pow_pos_nonneg; lia.
    + rewrite truncate_pos_exp by lia.
      assert (0 < 2 ^ e) by (apply Z.pow_pos_nonneg; lia). nia.
Qed.

(** The integer part of a non-negative float is the largest integer not
    above it. *)
Lemma truncate_floor (m : positive) (e : Z) :
  let secs := truncate false m e in
  if 0 <=? e then secs = Zpos m * 2 ^ e
  else secs * 2 ^ (- e) <= Zpos m < (secs + 1) * 2 ^ (- e).
Proof.
  cbv zeta. destruct (0 <=? e) eqn:P.
  - apply truncate_pos_exp. lia.
  - rewrite truncate_neg_exp by lia.
    assert (0 < 2 ^ (- e)) by (apply Z.pow_pos_nonneg; lia).
    pose proof (Z.div_mod (Zpos m) (2 ^ (- e))) as D.
    pose proof (Z.mod_pos_bound (Zpos m) (2 ^ (- e))) as B. nia.
Qed.

Lemma format_interval_eq (t : float) (secs : Z) :
  int_of_float t = Ok secs ->
  format_interval t =
    Ok (if negb (secs / 60 / 60 =? 0)
        then fmt_d (secs / 60 / 60) ++ ":" ++ fmt_0d 2 (secs / 60 mod 60)
             ++ ":" ++ fmt_0d 2 (secs mod 60)
        else fmt_0d 2 (secs / 60 mod 60) ++ ":" ++ fmt_0d 2 (secs mod 60)).
Proof.
  intros I. unfold format_interval. rewrite I. cbn [rbind]. unfold divmod60.
  now destruct (negb _).
Qed.

(** C9: [format_interval(t)] for a float [t >= 0].  The integer part of
    [t] is split by floor division into hours, minutes and seconds; with
    hours above zero the result is the hours in plain decimal and the
    minutes and seconds on two digits, otherwise the minutes and seconds
    on two digits.  The result matches [^\d+:\d{2}$] when [t < 3600] and
    [^\d+:\d{2}:\d{2}$] otherwise, and two durations with the same integer
    part give the same string. *)
Theorem format_interval_spec (t : float) :
  valid_binary prec emax t = true ->
  nonneg_finite t = true ->
  exists secs out,
    int_of_float t = Ok secs /\ 0 <= secs
    /\ format_interval t = Ok out
    /\ (let h := secs / 60 / 60 in
        let m := secs / 60 mod 60 in
        let s := secs mod 60 in
        secs = h * 3600 + m * 60 + s /\ 0 <= m < 60 /\ 0 <= s < 60
        /\ out = if 0 <? h
                 then fmt_d h ++ ":" ++ fmt_0d 2 m ++ ":" ++ fmt_0d 2 s
                 else fmt_0d 2 m ++ ":" ++ fmt_0d 2 s)
    /\ (if SFltb t (nearest_float 3600) then matches_MS out = true
        else matches_HMS out = true)
    /\ (forall t', int_of_float t' = Ok secs -> format_interval t' = Ok out).
Proof.
  intros V N. destruct (int_of_float_nonneg t N) as (secs & I & Hs).
  pose proof (format_interval_eq t secs I) as F.
  set (h := secs / 60 / 60) in *. set (m := secs / 60 mod 60) in *.
  set (s := secs mod 60) in *.
  assert (Hm : 0 <= m < 60) by (apply Z.mod_pos_bound; lia).
  assert (Hsec : 0 <= s < 60) by (apply Z.mod_pos_bound; lia).
  assert (Hh : 0 <= h) by (apply Z.div_pos; [apply Z.div_pos|]; lia).
  assert (D : secs = h * 3600 + m * 60 + s).
  { pose proof (Z.div_mod secs 60). pose proof (Z.div_mod (secs / 60) 60).
    unfold h, m, s. lia. }
  assert (E : negb (h =? 0) = (0 <? h)).
  { destruct (Z.eqb_spec h 0), (Z.ltb_spec 0 h); cbn; try reflexivity; lia. }
  rewrite E in F.
  eexists secs, _. split; [exact I|]. split; [exact Hs|].
  split; [exact F|]. split; [|split].
  - cbv zeta. fold h m s. repeat split; try lia.
  - rewrite (ltb_3600 t secs V N I).
    destruct (Z.ltb_spec secs 3600) as [L|G].
    + assert (h = 0) by (unfold h; rewrite Z.div_div by lia; apply Z.div_small; lia).
      destruct (Z.ltb_spec 0 h); [lia|].
      apply matches_MS_intro; [apply digits2_digits1|]; now apply digits2_fmt_0d.
    + assert (0 < h).
      { unfold h. rewrite Z.div_div by lia. apply Z.div_str_pos. lia. }
      destruct (Z.ltb_spec 0 h); [|lia].
      apply matches_HMS_intro; try now apply digits2_fmt_0d.
      rewrite fmt_d_nonneg by lia. apply digits1_dec_digits.
  - intros t' I'. rewrite (format_interval_eq t' secs I'). fold h m s.
    now rewrite E.
Qed.

(** A duration of one hour, two minutes and five seconds and a half. *)
Definition f_3725_5 : float := fquo (nearest_float 7451) (nearest_float 2).

Lemma format_interval_spec_witness :
  exists secs out,
    int_of_float f_3725_5 = Ok secs /\ 0 <= secs
    /\ format_interval f_3725_5 = Ok out
    /\ (let h := secs / 60 / 60 in
        let m := secs / 60 mod 60 in
        let s := secs mod 60 in
        secs = h * 3600 + m * 60 + s /\ 0 <= m < 60 /\ 0 <= s < 60
        /\ out = if 0 <? h
                 then fmt_d h ++ ":" ++ fmt_0d 2 m ++ ":" ++ fmt_0d 2 s
                 else fmt_0d 2 m ++ ":" ++ fmt_0d 2 s)
    /\ (if SFltb f_3725_5 (nearest_float 3600) then matches_MS out = true
        else matches_HMS out = true)
    /\ (forall t', int_of_float t' = Ok secs -> format_interval t' = Ok out).
Proof.
  apply (format_interval_spec f_3725_5); vm_compute; reflexivity.
Defined.

(** ** The status printer *)

Lemma length_repeat_space (k : nat) :
  String.length (repeat_string " " k) = k.
Proof. induction k as [|k IH]; simpl; [reflexivity | now rewrite IH]. Qed.

Lemma length_app (a b : string) :
  String.length (a ++ b) = (String.length a + String.length b)%nat.
Proof. induction a as [|c a IH]; simpl; [reflexivity | now rewrite IH]. Qed.

Lemma sapp_assoc (a b c : string) : (a ++ b) ++ c = a ++ b ++ c.
Proof. induction a as [|x a IH]; simpl; [reflexivity | now rewrite IH]. Qed.

Lemma len_append (a b : string) : len (a ++ b) = len a + len b.
Proof. unfold len. rewrite length_app. lia. Qed.

Lemma len_str_mul_space (k : Z) : len (str_mul " " k) = Z.max k 0.
Proof. unfold len, str_mul. rewrite length_repeat_space. lia. Qed.

(** C8: [print_status(s)] appends to the sink one write, made of a
    carriage return, [s] and [max(0, previous_length - len(s))] spaces, then
    one flush; the stored length becomes [len(s)].  The line written is long
    enough to cover the previous one. *)
Theorem print_status_spec (A : Type) (sp : StatusPrinter) (s : string)
    (w : world A) :
  let pad := Z.max 0 (last_printed_len sp - len s) in
  let line := CR ++ s ++ str_mul " " pad in
  exists sp',
    print_status sp s w =
      (Ok sp', mkWorld (trace w ++ [FileWrite line; FileFlush]) (ticks w))
    /\ last_printed_len sp' = len s
    /\ len line = 1 + Z.max (last_printed_len sp) (len s).
Proof.
  intros pad line. exists (mkStatusPrinter (len s)). repeat split.
  - unfold print_status, bind, emit, ret. simpl.
    rewrite <- app_assoc. simpl. unfold line, pad, CR.
    now rewrite (Z.max_comm 0).
  - unfold line. rewrite !len_append, len_str_mul_space.
    change (len CR) with 1. unfold pad. lia.
Qed.

(** ** Equations of the monadic operations *)

Section GeneratorFacts.

Variable A : Type.
Variable clock : nat -> float.
Variable cfg : config.
Variable total' : option Z.
Variable pfx : string.

Implicit Types (w : world A) (st : locals) (tr : list (event A)).

Definition status_line (p : StatusPrinter) (s : string) : string :=
  CR ++ s ++ str_mul " " (Z.max (last_printed_len p - len s) 0).

Lemma print_status_eq p s w :
  print_status p s w =
    (Ok (mkStatusPrinter (len s)),
     mkWorld (trace w ++ [FileWrite (status_line p s); FileFlush]) (ticks w)).
Proof.
  unfold print_status, bind, emit, ret; simpl.
  now rewrite <- app_assoc.
Qed.

Lemma render_eq p k e w :
  render total' pfx p k e w =
    match format_meter k total' e with
    | Ok m => print_status p (pfx ++ m) w
    | Raise x => (Raise x, w)
    end.
Proof.
  unfold render, bind, lift. now destruct (format_meter k total' e).
Qed.

(** One pass through the statements after [yield]: either nothing is
    printed, or the count and time checks passed and a line was printed,
    or the checks passed and [format_meter] raised. *)
Inductive step_outcome st w : result locals * world A -> Prop :=
| step_quiet (t : nat) :
    (t = ticks w \/ t = S (ticks w)) ->
    step_outcome st w
      (Ok (mkLocals (sp st) (start_t st) (last_print_t st) (last_print_n st)
             (n st + 1)),
       mkWorld (trace w) t)
| step_render (m : string) :
    n st + 1 - last_print_n st >= miniters cfg ->
    float_ge (fsub (clock (ticks w)) (last_print_t st)) (mininterval cfg) = true ->
    format_meter (n st + 1) total' (fsub (clock (ticks w)) (start_t st)) = Ok m ->
    step_outcome st w
      (Ok (mkLocals (mkStatusPrinter (len (pfx ++ m))) (start_t st)
             (clock (ticks w)) (n st + 1) (n st + 1)),
       mkWorld (trace w ++ [FileWrite (status_line (sp st) (pfx ++ m)); FileFlush])
         (S (ticks w)))
| step_raise (x : exn) :
    step_outcome st w (Raise x, mkWorld (trace w) (S (ticks w))).

Lemma after_yield_outcome st w :
  step_outcome st w (after_yield clock cfg total' pfx st w).
Proof.
  unfold after_yield.
  destruct (n st + 1 - last_print_n st >=? miniters cfg) eqn:Hn.
  - unfold bind at 1, time_time; cbn [trace ticks].
    destruct (float_ge _ _) eqn:Ht.
    + unfold bind. rewrite render_eq.
      destruct (format_meter _ _ _) eqn:Hm.
      * rewrite print_status_eq. unfold ret. cbn [trace ticks].
        apply step_render; [lia | exact Ht | exact Hm].
      * apply step_raise.
    + unfold ret. apply step_quiet. now right.
  - unfold ret. destruct w as [tr t]. apply (step_quiet st (mkWorld tr t) t). now left.
Qed.

End GeneratorFacts.

Arguments step_outcome {A}.

(** ** Pass-through *)

Lemma yields_app (A : Type) (a b : list (event A)) :
  yields (a ++ b) = (yields a ++ yields b)%list.
Proof.
  induction a as [|e a IH]; simpl; [reflexivity|].
  destruct e; simpl; now rewrite IH.
Qed.

Lemma after_yield_yields (A : Type) clock cfg total' pfx st (w : world A) r w' :
  after_yield clock cfg total' pfx st w = (r, w') ->
  yields (trace w') = yields (trace w).
Proof.
  intros H. pose proof (after_yield_outcome A clock cfg total' pfx st w) as O.
  rewrite H in O. inversion O; subst; cbn [trace]; try reflexivity.
  rewrite yields_app. simpl. now rewrite app_nil_r.
Qed.

(** Whatever happens, the consumer has received an initial segment of the
    items; when the loop ends normally it has received all of them. *)
Lemma loop_yields (A : Type) clock cfg total' pfx (xs : list A) :
  forall st (w : world A) r w',
    loop clock cfg total' pfx xs st w = (r, w') ->
    (exists pre suf, xs = (pre ++ suf)%list /\
                     yields (trace w') = (yields (trace w) ++ pre)%list)
    /\ (forall st', r = Ok st' -> yields (trace w') = (yields (trace w) ++ xs)%list).
Proof.
  induction xs as [|x xs IH]; intros st w r w' H.
  - cbn in H. unfold ret in H. inversion H; subst. split.
    + exists [], []. split; [reflexivity | now rewrite app_nil_r].
    + intros _ _. now rewrite app_nil_r.
  - cbn [loop] in H. unfold bind at 1 in H. unfold emit in H.
    unfold bind in H.
    destruct (after_yield _ _ _ _ _ _) as [[st1|e] w1] eqn:Hs.
    + apply after_yield_yields in Hs. cbn [trace] in Hs.
      rewrite yields_app in Hs. cbn in Hs.
      apply IH in H. destruct H as [(pre & suf & -> & Hp) Hall]. split.
      * exists (x :: pre), suf. split; [reflexivity|].
        rewrite Hp, Hs, <- app_assoc. reflexivity.
      * intros st' E. rewrite (Hall st' E), Hs, <- app_assoc. reflexivity.
    + apply after_yield_yields in Hs. cbn [trace] in Hs.
      rewrite yields_app in Hs. cbn in Hs.
      inversion H; subst. split.
      * exists [x], xs. split; [reflexivity | exact Hs].
      * intros st' E. discriminate E.
Qed.

Lemma finish_yields (A : Type) clock cfg total' pfx st (w : world A) r w' :
  finish clock cfg total' pfx st w = (r, w') ->
  yields (trace w') = yields (trace w).
Proof.
  unfold finish. destruct (leave cfg); cbn [negb].
  - destruct (last_print_n st <? n st).
    + unfold bind at 1. unfold bind at 1. unfold time_time. unfold bind at 1.
      rewrite render_eq. destruct (format_meter _ _ _).
      * rewrite print_status_eq. unfold ret, emit. cbn [trace ticks].
        intros H; inversion H; subst; cbn [trace].
        rewrite !yields_app. simpl. now rewrite !app_nil_r.
      * intros H; inversion H; subst. reflexivity.
    + unfold bind, ret, emit. intros H; inversion H; subst; cbn [trace].
      rewrite yields_app. simpl. now rewrite app_nil_r.
  - unfold bind. rewrite print_status_eq. unfold emit. cbn [trace ticks].
    intros H; inversion H; subst; cbn [trace].
    rewrite !yields_app. simpl. now rewrite !app_nil_r.
Qed.

(** The run, cut into its four stages. *)
Lemma run_stages (A : Type) clock (it : iterable A) cfg r w' :
  run clock it cfg = (r, w') ->
  let total' := resolve_total it cfg in
  let pfx := prefix_of cfg in
  match render total' pfx StatusPrinter_init 0 (nearest_float 0) (mkWorld [] 0) with
  | (Raise e, w0) => r = Raise e /\ w' = w0
  | (Ok p, w0) =>
      let t0 := clock (ticks w0) in
      let w1 := mkWorld (trace w0) (S (ticks w0)) in
      match loop clock cfg total' pfx (items it) (mkLocals p t0 t0 0 0) w1 with
      | (Raise e, w2) => r = Raise e /\ w' = w2
      | (Ok st, w2) => finish clock cfg total' pfx st w2 = (r, w')
      end
  end.
Proof.
  unfold run, tqdm. intros H. cbv zeta.
  unfold bind at 1 in H.
  destruct (render _ _ _ _ _ _) as [[p|e] w0]; [|now inversion H].
  unfold bind at 1 in H. unfold time_time in H.
  unfold bind at 1 in H.
  destruct (loop _ _ _ _ _ _ _) as [[st|e] w2]; [exact H | now inversion H].
Qed.

(** X14: a run that completes, that is, in which no status line failed to
    be formatted, has handed over exactly the items of the iterable, in
    order (hence as many), whatever the configuration and the clock. *)
Theorem tqdm_pass_through (A : Type) (clock : nat -> float)
    (it : iterable A) (cfg : config) (w' : world A) :
  run clock it cfg = (Ok tt, w') ->
  yields (trace w') = items it
  /\ List.length (yields (trace w')) = List.length (items it).
Proof.
  intros H. assert (E : yields (trace w') = items it).
  { apply run_stages in H. cbv zeta in H.
    rewrite render_eq in H.
    destruct (format_meter 0 _ _) as [m|e]; [|now destruct H].
    rewrite print_status_eq in H. cbn [trace ticks] in H.
    destruct (loop _ _ _ _ _ _ _) as [[st|e] w2] eqn:L; [|now destruct H].
    apply finish_yields in H. rewrite H.
    apply loop_yields in L. destruct L as [_ L].
    rewrite (L st eq_refl). reflexivity. }
  split; [exact E | now rewrite E].
Qed.

(** C1: pass-through fails for an iterable without [len()] wrapped with
    no [total] argument, however many items it has and whatever the other
    arguments and the clock: [total] stays [None], the first status line is
    formatted with it, the guard [n > total] of [format_meter] raises
    [TypeError], and the consumer receives that exception in place of the
    first item.  Nothing was written and nothing handed over. *)
Theorem tqdm_pass_through_fails (A : Type) (clock : nat -> float)
    (x : A) (xs : list A) (d : string) (lv : bool) (mi : float) (mn : Z) :
  let it := mkIterable (x :: xs) None in
  let cfg := mkConfig d None lv mi mn in
  run clock it cfg = (Raise TypeError, mkWorld [] 0)
  /\ yields (trace (snd (run clock it cfg))) = []
  /\ yields (trace (snd (run clock it cfg))) <> items it.
Proof.
  intros it cfg.
  assert (R : run clock it cfg = (Raise TypeError, mkWorld [] 0)).
  { unfold run, tqdm, bind. rewrite render_eq. reflexivity. }
  rewrite R. cbn [snd trace yields items it]. repeat split. discriminate.
Qed.

(** The same happens, with [OverflowError], when the total does not
    convert to a float. *)
Example tqdm_huge_total_raises (A : Type) (clock : nat -> float)
    (it : iterable A) (d : string) (lv : bool) (mi : float) (mn : Z) :
  run clock it (mkConfig d (Some (2 ^ 1024)) lv mi mn)
  = (Raise OverflowError, mkWorld [] 0).
Proof.
  unfold run, tqdm, bind. rewrite render_eq.
  cbn [resolve_total total].
  assert (E : format_meter 0 (Some (2 ^ 1024)) (nearest_float 0)
              = Raise OverflowError) by (vm_compute; reflexivity).
  now rewrite E.
Qed.

(** ** Rendering decisions *)

Lemma renders_app (A : Type) (a b : list (event A)) :
  renders (a ++ b) = renders a + renders b.
Proof.
  induction a as [|e a IH]; [reflexivity|].
  destruct e; cbn [app renders]; lia.
Qed.

Lemma renders_nonneg (A : Type) (a : list (event A)) : 0 <= renders a.
Proof.
  induction a as [|e a IH]; [cbn; lia|]. destruct e; cbn [renders]; lia.
Qed.

(** Each line printed in the loop uses up [miniters] counts of the distance
    between the counter and the count at the last print. *)
Lemma loop_renders (A : Type) clock cfg total' pfx (xs : list A) :
  0 < miniters cfg ->
  forall st (w : world A) r w',
    last_print_n st <= n st ->
    loop clock cfg total' pfx xs st w = (r, w') ->
    (renders (trace w') - renders (trace w)) * miniters cfg
      <= n st - last_print_n st + Z.of_nat (List.length xs).
Proof.
  intros Hk. induction xs as [|x xs IH]; intros st w r w' Hle H.
  - cbn in H. inversion H; subst. cbn [List.length]. lia.
  - cbn [loop] in H. unfold bind at 1 in H. unfold emit in H.
    unfold bind in H. cbn [List.length]. rewrite Nat2Z.inj_succ.
    pose proof (after_yield_outcome A clock cfg total' pfx st
                  (mkWorld (trace w ++ [Yield x]) (ticks w))) as O.
    destruct (after_yield _ _ _ _ _ _) as [[st1|e] w1] eqn:Hs.
    + inversion O; subst; cbn [trace ticks] in *.
      * apply IH in H; cbn [n last_print_n trace] in *; [|lia].
        rewrite renders_app in H. cbn [renders] in H. lia.
      * apply IH in H; cbn [n last_print_n trace] in *; [|lia].
        rewrite !renders_app in H. cbn [renders] in H. lia.
    + inversion H; subst. inversion O; subst. cbn [trace].
      rewrite renders_app. cbn [renders]. lia.
Qed.

Lemma renders_finish (A : Type) clock cfg total' pfx st (w : world A) r w' :
  finish clock cfg total' pfx st w = (r, w') ->
  renders (trace w') <= renders (trace w) + 1.
Proof.
  unfold finish. destruct (leave cfg); cbn [negb].
  - destruct (last_print_n st <? n st).
    + unfold bind at 1. unfold bind at 1. unfold time_time. unfold bind at 1.
      rewrite render_eq. destruct (format_meter _ _ _).
      * rewrite print_status_eq. unfold ret, emit. cbn [trace ticks].
        intros H; inversion H; subst; cbn [trace].
        rewrite !renders_app. cbn [renders]. lia.
      * intros H; inversion H; subst. cbn [trace]. lia.
    + unfold bind, ret, emit. intros H; inversion H; subst; cbn [trace].
      rewrite renders_app. cbn [renders]. lia.
  - unfold bind. rewrite print_status_eq. unfold emit. cbn [trace ticks].
    intros H; inversion H; subst; cbn [trace].
    rewrite !renders_app. cbn [renders]. lia.
Qed.

(** C3: in the loop a line is printed only when the count has advanced by
    at least [miniters] since the last print and the clock by at least
    [mininterval]; the print records the current count and time.  Hence,
    for [miniters = k > 0] and a sequence of length [L], the loop prints at
    most [ceil(L / k)] lines, and a whole run at most two more (the first
    line and the closing one). *)
Theorem render_decision (A : Type) (clock : nat -> float) (cfg : config)
    (total' : option Z) (pfx : string) :
  (forall st (w : world A) st' w',
      after_yield clock cfg total' pfx st w = (Ok st', w') ->
      renders (trace w') <> renders (trace w) ->
      n st' = n st + 1
      /\ n st' - last_print_n st >= miniters cfg
      /\ float_ge (fsub (clock (ticks w)) (last_print_t st)) (mininterval cfg)
         = true
      /\ last_print_n st' = n st'
      /\ last_print_t st' = clock (ticks w))
  /\ (forall xs p t0 (w : world A) r w',
      0 < miniters cfg ->
      loop clock cfg total' pfx xs (mkLocals p t0 t0 0 0) w = (r, w') ->
      renders (trace w') - renders (trace w)
        <= (Z.of_nat (List.length xs) + miniters cfg - 1) / miniters cfg)
  /\ (forall it r (w' : world A),
      0 < miniters cfg ->
      run clock it cfg = (r, w') ->
      renders (trace w')
        <= (Z.of_nat (List.length (items it)) + miniters cfg - 1) / miniters cfg
           + 2).
Proof.
  assert (B : forall xs p t0 (w : world A) r w',
      0 < miniters cfg ->
      loop clock cfg total' pfx xs (mkLocals p t0 t0 0 0) w = (r, w') ->
      renders (trace w') - renders (trace w)
        <= (Z.of_nat (List.length xs) + miniters cfg - 1) / miniters cfg).
  { intros xs p t0 w r w' Hk H.
    apply loop_renders in H; [|exact Hk|cbn; lia]. cbn [n last_print_n] in H.
    apply Z.div_le_lower_bound; [exact Hk|]. lia. }
  split; [|split].
  - intros st w st' w' H Hr.
    pose proof (after_yield_outcome A clock cfg total' pfx st w) as O.
    rewrite H in O. inversion O; subst; cbn [trace] in Hr.
    + now elim Hr.
    + cbn. repeat split; try assumption; try lia.
  - exact B.
  - intros it r w' Hk H. clear B.
    apply run_stages in H. cbv zeta in H.
    rewrite render_eq in H.
    destruct (format_meter 0 _ _) as [m|e].
    + rewrite print_status_eq in H. cbn [trace ticks] in H.
      destruct (loop _ _ _ _ _ _ _) as [[st|e] w2] eqn:L.
      * apply renders_finish in H.
        apply loop_renders in L; [|exact Hk|cbn; lia].
        cbn [n last_print_n trace renders app] in L.
        assert (renders (trace w2) - 1
                <= (Z.of_nat (List.length (items it)) + miniters cfg - 1)
                     / miniters cfg)
          by (apply Z.div_le_lower_bound; [exact Hk | lia]).
        lia.
      * destruct H as [_ ->].
        apply loop_renders in L; [|exact Hk|cbn; lia].
        cbn [n last_print_n trace renders app] in L.
        assert (renders (trace w2) - 1
                <= (Z.of_nat (List.length (items it)) + miniters cfg - 1)
                     / miniters cfg)
          by (apply Z.div_le_lower_bound; [exact Hk | lia]).
        lia.
    + destruct H as [_ ->]. cbn [trace renders].
      assert (0 <= (Z.of_nat (List.length (items it)) + miniters cfg - 1)
                     / miniters cfg)
        by (apply Z.div_pos; lia).
      lia.
Qed.

(** ** Termination *)

(** [tqdm] up to the exhaustion of the iterable: the first status line,
    the first reading of the clock and the loop. *)
Definition consume {A : Type} (clock : nat -> float) (it : iterable A)
    (cfg : config) : M A locals :=
  let total' := resolve_total it cfg in
  let pfx := prefix_of cfg in
  @bind A _ _ (render total' pfx StatusPrinter_init 0 (nearest_float 0))
    (fun p =>
       @bind A _ _ (time_time clock)
         (fun t0 => loop clock cfg total' pfx (items it) (mkLocals p t0 t0 0 0))).

(** A run is [consume] followed by the statements after the loop. *)
Lemma run_consume (A : Type) clock (it : iterable A) cfg :
  run clock it cfg =
    match consume clock it cfg (mkWorld [] 0) with
    | (Ok st, w1) =>
        finish clock cfg (resolve_total it cfg) (prefix_of cfg) st w1
    | (Raise e, w1) => (Raise e, w1)
    end.
Proof.
  unfold run, tqdm, consume. cbv zeta. unfold bind at 1 4.
  destruct (render _ _ _ _ _ _) as [[p|e] w0]; [|reflexivity].
  unfold bind at 1 3. unfold time_time. unfold bind.
  destruct (loop _ _ _ _ _ _ _) as [[st|e] w2]; reflexivity.
Qed.

(** The statements after the loop, case by case. *)
Lemma finish_eq (A : Type) clock cfg total' pfx st (w : world A) :
  finish clock cfg total' pfx st w =
    if negb (leave cfg) then
      (Ok tt,
       mkWorld (trace w ++ [FileWrite (status_line (sp st) ""); FileFlush;
                            StdoutWrite CR]) (ticks w))
    else if last_print_n st <? n st then
      match format_meter (n st) total' (fsub (clock (ticks w)) (start_t st)) with
      | Ok m =>
          (Ok tt,
           mkWorld (trace w ++ [FileWrite (status_line (sp st) (pfx ++ m));
                                FileFlush; FileWrite NL]) (S (ticks w)))
      | Raise x => (Raise x, mkWorld (trace w) (S (ticks w)))
      end
    else (Ok tt, mkWorld (trace w ++ [FileWrite NL]) (ticks w)).
Proof.
  unfold finish. destruct (leave cfg); cbn [negb].
  - destruct (last_print_n st <? n st).
    + unfold bind at 1. unfold bind at 1. unfold time_time. unfold bind at 1.
      rewrite render_eq. destruct (format_meter _ _ _).
      * rewrite print_status_eq. unfold ret, emit. cbn [trace ticks].
        now rewrite <- !app_assoc.
      * reflexivity.
    + reflexivity.
  - unfold bind. rewrite print_status_eq. unfold emit. cbn [trace ticks].
    now rewrite <- !app_assoc.
Qed.

Section Termination.

Variable A : Type.
Variable clock : nat -> float.
Variable cfg : config.
Variable total' : option Z.
Variable pfx : string.
Variable t0 : float.

(** The elapsed times a status line can show: zero for the first line, a
    clock reading minus the start time for the others. *)
Definition elapsed_reading (e : float) : Prop :=
  e = nearest_float 0 \/ exists i, e = fsub (clock i) t0.

(** The elapsed time of a status line for count [k] that is up to date in
    the world [w]: zero when nothing was counted yet (the first line),
    otherwise the latest reading of the clock minus the start time. *)
Definition latest_elapsed (k : Z) (w : world A) : float :=
  if k =? 0 then nearest_float 0 else fsub (clock (pred (ticks w))) t0.

(** The loop invariant: the trace ends with the last status line and the
    values yielded since; that line shows the meter for the count at its
    print, which lags behind the counter by the number of those values;
    the printer remembers the length of its text; when nothing was yielded
    since, its elapsed time is the latest one. *)
Definition tail_inv (st : locals) (w : world A) : Prop :=
  start_t st = t0
  /\ 0 <= last_print_n st
  /\ exists pre m pad ys e,
      trace w = (pre ++ [FileWrite (CR ++ (pfx ++ m) ++ str_mul " " pad);
                         FileFlush]
                 ++ map Yield ys)%list
      /\ last_printed_len (sp st) = len (pfx ++ m)
      /\ n st = last_print_n st + Z.of_nat (List.length ys)
      /\ format_meter (last_print_n st) total' e = Ok m
      /\ elapsed_reading e
      /\ (ys = [] -> e = latest_elapsed (n st) w).

Lemma loop_tail_inv (xs : list A) :
  forall st w st' w',
    tail_inv st w ->
    loop clock cfg total' pfx xs st w = (Ok st', w') ->
    tail_inv st' w' /\ n st' = n st + Z.of_nat (List.length xs).
Proof.
  induction xs as [|x xs IH]; intros st w st' w' I H.
  - cbn in H. inversion H; subst. split; [exact I | cbn; lia].
  - cbn [loop] in H. unfold bind at 1 in H. unfold emit in H.
    unfold bind in H. cbn [List.length]. rewrite Nat2Z.inj_succ.
    pose proof (after_yield_outcome A clock cfg total' pfx st
                  (mkWorld (trace w ++ [Yield x]) (ticks w))) as O.
    destruct (after_yield _ _ _ _ _ _) as [[st1|e] w1] eqn:Hs;
      [|discriminate H].
    destruct I as (Hs0 & Hle & pre & m0 & pad & ys & e0 & Htr & Hlen & Hn
                   & Hm & He & Hup).
    inversion O; subst st1 w1; cbn [trace ticks] in *.
    + apply IH in H.
      * cbn [n] in H. destruct H as [I' ->]. split; [exact I' | lia].
      * split; [exact Hs0|]. split; [exact Hle|].
        exists pre, m0, pad, (ys ++ [x])%list, e0.
        cbn [trace sp n last_print_n].
        split; [rewrite Htr, map_app, <- !app_assoc; reflexivity|].
        split; [exact Hlen|].
        split; [rewrite List.length_app, Nat2Z.inj_add; cbn [List.length]; lia|].
        split; [exact Hm|]. split; [exact He|].
        intros E. now destruct ys.
    + apply IH in H.
      * cbn [n] in H. destruct H as [I' ->]. split; [exact I' | lia].
      * split; [exact Hs0|]. split; [cbn [last_print_n]; lia|].
        exists (trace w ++ [Yield x])%list, m,
          (Z.max (last_printed_len (sp st) - len (pfx ++ m)) 0), [],
          (fsub (clock (ticks w)) t0).
        cbn [trace ticks sp n last_print_n last_printed_len map List.length].
        split; [unfold status_line; now rewrite app_nil_r|].
        split; [reflexivity|]. split; [lia|].
        split; [now rewrite <- Hs0|].
        split; [right; now exists (ticks w)|].
        intros _. unfold latest_elapsed. cbn [ticks pred].
        destruct (Z.eqb_spec (n st + 1) 0) as [E|_]; [lia | reflexivity].
Qed.

End Termination.

Arguments tail_inv {A}.
Arguments latest_elapsed {A}.

(** When the iterable is exhausted: all its items were handed over, the
    counter is their number and the invariant holds. *)
Lemma consume_tail_inv (A : Type) clock (it : iterable A) cfg st w1 :
  consume clock it cfg (mkWorld [] 0) = (Ok st, w1) ->
  tail_inv clock (resolve_total it cfg) (prefix_of cfg) (clock 0%nat) st w1
  /\ n st = Z.of_nat (List.length (items it))
  /\ yields (trace w1) = items it.
Proof.
  unfold consume. cbv zeta. unfold bind at 1. rewrite render_eq.
  destruct (format_meter 0 _ _) as [m0|e] eqn:Hm0; [|discriminate].
  rewrite print_status_eq. cbn [trace ticks app].
  unfold bind at 1. unfold time_time. cbn [trace ticks]. intros L.
  pose proof L as Y. apply loop_yields in Y. destruct Y as [_ Y].
  specialize (Y st eq_refl). cbn [trace yields app] in Y.
  apply (loop_tail_inv A clock cfg (resolve_total it cfg) (prefix_of cfg)
           (clock 0%nat)) in L.
  - cbn [n] in L. destruct L as [I ->]. split; [exact I|]. split; [lia | exact Y].
  - split; [reflexivity|]. split; [cbn; lia|].
    exists [], m0,
      (Z.max (last_printed_len StatusPrinter_init - len (prefix_of cfg ++ m0)) 0),
      [], (nearest_float 0).
    cbn [trace sp n last_print_n last_printed_len map app List.length].
    split; [reflexivity|]. split; [reflexivity|]. split; [reflexivity|].
    split; [exact Hm0|]. split; [now left|]. intros _. reflexivity.
Qed.

(** What the end of a completed run looks like.  [w1] is the world when
    the iterable is exhausted: every item was handed over, and the trace
    ends with the last status line, showing the meter [m] for the count
    at its print, and the [ys] yielded since, by which that count is
    behind the final one.  Then:
    - with [leave] false, a carriage return and as many spaces as the last
      status text was long are written on the sink, the sink is flushed,
      and a bare carriage return is written on [sys.stdout];
    - with [leave] true and the last line up to date ([ys] empty; its
      elapsed time is then the latest one), only the newline is written;
    - with [leave] true and the last line behind, the clock is read once
      more, one more status line is written, showing the meter for the
      final count and the time elapsed at that reading and padded to cover
      the previous line, the sink is flushed, and the newline is written.
    The clock is read only in the last case. *)
Definition terminated {A : Type} (clock : nat -> float) (it : iterable A)
    (cfg : config) (w' : world A) : Prop :=
  let L := Z.of_nat (List.length (items it)) in
  let total' := resolve_total it cfg in
  let pfx := prefix_of cfg in
  exists st w1 pre m pad ys e,
    consume clock it cfg (mkWorld [] 0) = (Ok st, w1)
    /\ yields (trace w1) = items it
    /\ trace w1 =
         (pre ++ [FileWrite (CR ++ (pfx ++ m) ++ str_mul " " pad); FileFlush]
          ++ map Yield ys)%list
    /\ format_meter (L - Z.of_nat (List.length ys)) total' e = Ok m
    /\ elapsed_reading clock (clock 0%nat) e
    /\ if leave cfg then
         match ys with
         | [] =>
             e = latest_elapsed clock (clock 0%nat) L w1
             /\ trace w' = (trace w1 ++ [FileWrite NL])%list
             /\ ticks w' = ticks w1
         | _ :: _ =>
             exists m',
               format_meter L total' (fsub (clock (ticks w1)) (clock 0%nat))
               = Ok m'
               /\ trace w' =
                    (trace w1
                     ++ [FileWrite
                           (CR ++ (pfx ++ m')
                            ++ str_mul " "
                                 (Z.max (len (pfx ++ m) - len (pfx ++ m')) 0));
                         FileFlush; FileWrite NL])%list
               /\ ticks w' = S (ticks w1)
         end
       else
         trace w' =
           (trace w1
            ++ [FileWrite (CR ++ str_mul " " (len (pfx ++ m))); FileFlush;
                StdoutWrite CR])%list
         /\ ticks w' = ticks w1.

(** C4: after the wrapped sequence has been consumed to completion.  With
    [leave] false the sink's last write is the cleared line (a carriage
    return and spaces covering the last status text), followed by a bare
    carriage return on [sys.stdout].  With [leave] true, if the last
    status line is behind the final count, one more is printed for the
    final count and the time elapsed at a fresh reading of the clock, and
    if it is up to date nothing more is printed; either way the sink's
    last writes are the meter line for the final count and a newline. *)
Theorem tqdm_termination (A : Type) (clock : nat -> float)
    (it : iterable A) (cfg : config) (w' : world A) :
  run clock it cfg = (Ok tt, w') ->
  terminated clock it cfg w'.
Proof.
  rewrite run_consume.
  destruct (consume clock it cfg (mkWorld [] 0)) as [[st|e] w1] eqn:C;
    [|discriminate].
  destruct (consume_tail_inv A clock it cfg st w1 C)
    as ((Hs0 & Hle & pre & m & pad & ys & e & Htr & Hlen & Hn & Hm & He & Hup)
        & HL & HY).
  rewrite finish_eq. intros H. unfold terminated. cbv zeta.
  exists st, w1, pre, m, pad, ys, e.
  split; [exact C|]. split; [exact HY|]. split; [exact Htr|].
  assert (Hp : last_print_n st
               = Z.of_nat (List.length (items it)) - Z.of_nat (List.length ys))
    by lia.
  split; [now rewrite <- Hp|]. split; [exact He|].
  destruct (leave cfg); cbn [negb] in H.
  - destruct ys as [|y ys].
    + cbn [List.length] in Hn.
      destruct (Z.ltb_spec (last_print_n st) (n st)) as [Hlt|_]; [lia|].
      apply (f_equal snd) in H; cbn [snd] in H; subst w'. cbn [trace ticks].
      split; [rewrite <- HL; now apply Hup | split; reflexivity].
    + cbn [List.length] in Hn. rewrite Nat2Z.inj_succ in Hn.
      destruct (Z.ltb_spec (last_print_n st) (n st)) as [_|Hge]; [|lia].
      rewrite Hs0, HL in H.
      destruct (format_meter (Z.of_nat (List.length (items it)))
                  (resolve_total it cfg)
                  (fsub (clock (ticks w1)) (clock 0%nat))) as [m'|x] eqn:Hm';
        [|discriminate].
      apply (f_equal snd) in H; cbn [snd] in H; subst w'. cbn [trace ticks].
      exists m'. split; [reflexivity|]. split; [|reflexivity].
      unfold status_line. now rewrite Hlen.
  - apply (f_equal snd) in H; cbn [snd] in H; subst w'. cbn [trace ticks]. split; [|reflexivity].
    unfold status_line. rewrite Hlen. cbn [append].
    change (len "") with 0. rewrite Z.sub_0_r.
    replace (Z.max (len (prefix_of cfg ++ m)) 0) with (len (prefix_of cfg ++ m))
      by (unfold len; lia).
    reflexivity.
Qed.

(** Once the iterable is exhausted the run does complete, unless the
    closing status line is needed and cannot be formatted. *)
Lemma tqdm_completes (A : Type) (clock : nat -> float)
    (it : iterable A) (cfg : config) (st : locals) (w1 : world A) :
  consume clock it cfg (mkWorld [] 0) = (Ok st, w1) ->
  (leave cfg = true -> last_print_n st < n st ->
   exists m',
     format_meter (Z.of_nat (List.length (items it))) (resolve_total it cfg)
       (fsub (clock (ticks w1)) (clock 0%nat)) = Ok m') ->
  exists w', run clock it cfg = (Ok tt, w').
Proof.
  intros C F. rewrite run_consume, C, finish_eq.
  destruct (consume_tail_inv A clock it cfg st w1 C) as ((Hs0 & _) & HL & _).
  destruct (leave cfg); cbn [negb]; [|eauto].
  destruct (Z.ltb_spec (last_print_n st) (n st)) as [Hlt|_]; [|eauto].
  destruct (F eq_refl Hlt) as (m' & Hm'). rewrite Hs0, HL, Hm'. eauto.
Qed.

(** ** A sample run

    Three items of known length, a clock that advances by half a second at
    each reading, [desc='d'], [leave=True], [mininterval=0.5],
    [miniters=1]. *)

Definition sample_clock (i : nat) : float :=
  fquo (nearest_float (Z.of_nat i)) (nearest_float 2).

Definition sample_items : iterable Z := mkIterable [1; 2; 3] (Some 3).

Definition sample_cfg : config :=
  mkConfig "d" None true (fquo (nearest_float 1) (nearest_float 2)) 1.

Definition sample_world : world Z := snd (run sample_clock sample_items sample_cfg).

Lemma sample_run : run sample_clock sample_items sample_cfg = (Ok tt, sample_world).
Proof. vm_compute. reflexivity. Qed.

Lemma tqdm_pass_through_witness :
  yields (trace sample_world) = items sample_items
  /\ List.length (yields (trace sample_world)) = List.length (items sample_items).
Proof.
  apply (tqdm_pass_through Z sample_clock sample_items sample_cfg).
  vm_compute. reflexivity.
Defined.

Lemma render_decision_witness :
  renders (trace sample_world)
  <= (Z.of_nat (List.length (items sample_items)) + miniters sample_cfg - 1)
       / miniters sample_cfg + 2.
Proof.
  apply (proj2 (proj2 (render_decision Z sample_clock sample_cfg None ""))
           sample_items (Ok tt) sample_world).
  - reflexivity.
  - vm_compute. reflexivity.
Defined.

(** Two more runs over the same items with the same clock: one with
    [miniters=2], whose last status line in the loop is printed at count
    2, so that the closing one is needed; one with [leave=False]. *)

Definition lagging_cfg : config :=
  mkConfig "d" None true (fquo (nearest_float 1) (nearest_float 2)) 2.

Definition lagging_world : world Z :=
  snd (run sample_clock sample_items lagging_cfg).

Definition clearing_cfg : config :=
  mkConfig "d" None false (fquo (nearest_float 1) (nearest_float 2)) 1.

Definition clearing_world : world Z :=
  snd (run sample_clock sample_items clearing_cfg).

Lemma tqdm_termination_witness :
  terminated sample_clock sample_items sample_cfg sample_world
  /\ terminated sample_clock sample_items lagging_cfg lagging_world
  /\ terminated sample_clock sample_items clearing_cfg clearing_world.
Proof.
  split; [|split]; apply tqdm_termination; vm_compute; reflexivity.
Defined.

(** The end of the second run: the third item, the closing status line,
    formatted for count 3 at the third reading of the clock, and the
    newline.  The end of the third: the cleared line and the carriage
    return on [sys.stdout]. *)
Example lagging_run_end :
  skipn 6 (trace lagging_world) =
    [Yield 3;
     FileWrite (CR ++ "d: |##########| 3/3 100% [elapsed: 00:01 left: 00:00,  3.00 iters/sec]");
     FileFlush; FileWrite NL]
  /\ ticks lagging_world = 3%nat.
Proof. split; vm_compute; reflexivity. Qed.

Example clearing_run_end :
  skipn 9 (trace clearing_world) =
    [FileWrite (CR ++ "d: |##########| 3/3 100% [elapsed: 00:01 left: 00:00,  2.00 iters/sec]");
     FileFlush;
     FileWrite (CR ++ str_mul " " 70); FileFlush; StdoutWrite CR]
  /\ ticks clearing_world = 4%nat.
Proof. split; vm_compute; reflexivity. Qed.

(** ** The meter *)

(** [format_meter] with an integer total, branch by branch. *)
Lemma format_meter_Some (n t : Z) (elapsed : float) :
  format_meter n (Some t) elapsed =
    (elapsed_str <- format_interval elapsed ;;
     rate <- rate_str n elapsed ;;
     if takes_known_branch n (Some t) then
       frac <- fraction n t ;;
       k <- bar_length frac ;;
       pct <- percentage frac ;;
       left <- left_str n t elapsed ;;
       Ok (known_line (bar_of k) n t pct elapsed_str left rate)
     else Ok (unknown_line n elapsed_str rate)).
Proof.
  unfold format_meter, takes_known_branch, guard_total. cbn [rbind].
  destruct (format_interval elapsed) as [es|]; [|reflexivity]. cbn [rbind].
  destruct (rate_str n elapsed) as [rs|]; [|reflexivity]. cbn [rbind].
  destruct (n >? t); [reflexivity|].
  destruct (negb (t =? 0)); reflexivity.
Qed.

Lemma takes_known_branch_iff (n : Z) (total : option Z) :
  takes_known_branch n total = true <->
  exists t, total = Some t /\ n <= t /\ t <> 0.
Proof.
  unfold takes_known_branch, guard_total. split.
  - destruct total as [t|]; [|discriminate].
    destruct (Z.gtb_spec n t); [discriminate|].
    destruct (Z.eqb_spec t 0); [discriminate|]. intros _. exists t. auto.
  - intros (t & -> & L & N).
    destruct (Z.gtb_spec n t); [lia|].
    destruct (Z.eqb_spec t 0); [lia | reflexivity].
Qed.

(** The bar. *)
Lemma length_repeat_1 (c : ascii) (k : nat) :
  String.length (repeat_string (String c "") k) = k.
Proof. induction k as [|k IH]; simpl; [reflexivity | now rewrite IH]. Qed.

Lemma length_sapp (a b : string) :
  String.length (a ++ b) = (String.length a + String.length b)%nat.
Proof. induction a as [|c a IH]; simpl; [reflexivity | now rewrite IH]. Qed.

Lemma len_bar_of (k : Z) : 0 <= k <= 10 -> len (bar_of k) = 10.
Proof.
  intros H. unfold bar_of, len, str_mul, n_bars.
  rewrite length_sapp, !length_repeat_1. lia.
Qed.

(** [float(n) / total] for [0 <= n <= total], [total > 0]. *)
Lemma fraction_unit (n t : Z) (frac : float) :
  0 <= n <= t -> 0 < t -> fraction n t = Ok frac -> unit_float frac.
Proof.
  intros [H0 Hle] Ht. unfold fraction.
  destruct (float_of_int n) as [fn|] eqn:Fn; [|discriminate]. cbn [rbind].
  destruct (float_of_int t) as [ft|] eqn:Ft; [|discriminate]. cbn [rbind].
  destruct (float_of_int_pos t ft Ht Ft) as (mt & et & -> & _).
  unfold float_div. cbn [float_truth]. intros H. injection H as <-.
  destruct (Z.eq_dec n 0) as [->|N].
  - unfold float_of_int in Fn. rewrite nearest_float_zero in Fn.
    injection Fn as <-. now left.
  - destruct (float_of_int_mono n t _ ltac:(lia) Ft)
      as (ma & ea & mb & eb & Fa & E & Ha & Hb & Hv).
    rewrite Fa in Fn. injection Fn as <-. injection E as -> ->.
    now apply fquo_unit.
Qed.

Lemma unit_float_le_1 (x : float) :
  unit_float x -> nonneg_finite x = true /\ float_le_Z x 1 = true.
Proof.
  intros [->|(m & e & -> & He & Hm)]; [split; reflexivity|].
  split; [reflexivity|]. unfold float_le_Z.
  destruct (Z.leb_spec 0 e) as [L|L].
  - assert (e = 0) by lia. subst e. change (2 ^ (- 0)) with 1 in Hm.
    apply Z.leb_le. change (2 ^ 0) with 1. lia.
  - apply Z.leb_le. lia.
Qed.

Lemma bar_length_unit (frac : float) :
  unit_float frac -> exists k, bar_length frac = Ok k /\ 0 <= k <= 10.
Proof.
  intros U. unfold bar_length, n_bars. rewrite nearest_float_10.
  destruct (int_of_fmul_unit frac 10 5629499534213120 (-49) U)
    as (k & I & B & _); try reflexivity; try lia.
  exists k. auto.
Qed.

Lemma percentage_unit (frac : float) :
  unit_float frac ->
  exists p, int_of_float (fmul frac (nearest_float 100)) = Ok p
            /\ 0 <= p <= 100
            /\ percentage frac = Ok (fmt_wd 3 p ++ "%")
            /\ nonneg_finite (fmul frac (nearest_float 100)) = true.
Proof.
  intros U. unfold percentage, fmt_3d_percent. rewrite nearest_float_100.
  destruct (int_of_fmul_unit frac 100 7036874417766400 (-46) U)
    as (p & I & B & N); try reflexivity; try lia.
  exists p. rewrite I. auto.
Qed.

(** C10: when [format_meter] reaches its known-total branch the guard has
    established [n <= total]; for a count [n >= 0] the fraction is then a
    float between 0 and 1, the bar is [k] filled marks followed by
    [10 - k] empty ones with [0 <= k <= 10], ten characters in all, and
    the number printed as percentage lies between 0 and 100.  The line
    returned is built from that bar and that number. *)
Theorem known_branch_invariants (n : Z) (total : option Z) :
  0 <= n ->
  takes_known_branch n total = true ->
  exists t,
    total = Some t /\ n <= t /\ 0 < t
    /\ (forall frac, fraction n t = Ok frac ->
        nonneg_finite frac = true /\ float_le_Z frac 1 = true
        /\ exists k p,
            bar_length frac = Ok k /\ 0 <= k <= 10
            /\ bar_of k = str_mul "#" k ++ str_mul "-" (10 - k)
            /\ len (bar_of k) = 10
            /\ int_of_float (fmul frac (nearest_float 100)) = Ok p
            /\ 0 <= p <= 100
            /\ percentage frac = Ok (fmt_wd 3 p ++ "%"))
    /\ (forall elapsed line, format_meter n total elapsed = Ok line ->
        exists k p es ls rs,
          0 <= k <= 10 /\ 0 <= p <= 100
          /\ line = known_line (bar_of k) n t (fmt_wd 3 p ++ "%") es ls rs).
Proof.
  intros Hn Hb. pose proof Hb as Hb'.
  apply takes_known_branch_iff in Hb'. destruct Hb' as (t & -> & Hle & Ht).
  exists t. split; [reflexivity|]. split; [exact Hle|]. split; [lia|].
  assert (V : forall frac, fraction n t = Ok frac ->
              nonneg_finite frac = true /\ float_le_Z frac 1 = true
              /\ exists k p,
                  bar_length frac = Ok k /\ 0 <= k <= 10
                  /\ bar_of k = str_mul "#" k ++ str_mul "-" (10 - k)
                  /\ len (bar_of k) = 10
                  /\ int_of_float (fmul frac (nearest_float 100)) = Ok p
                  /\ 0 <= p <= 100
                  /\ percentage frac = Ok (fmt_wd 3 p ++ "%")).
  { intros frac F. apply fraction_unit in F; [|lia|lia].
    destruct (unit_float_le_1 frac F) as [N1 L1].
    destruct (bar_length_unit frac F) as (k & Bk & Hk).
    destruct (percentage_unit frac F) as (p & Ip & Hp & Pp & _).
    split; [exact N1|]. split; [exact L1|]. exists k, p.
    repeat split; try assumption; try lia. now apply len_bar_of. }
  split; [exact V|].
  intros elapsed line. rewrite format_meter_Some, Hb.
  destruct (format_interval elapsed) as [es|]; [|discriminate]. cbn [rbind].
  destruct (rate_str n elapsed) as [rs|]; [|discriminate]. cbn [rbind].
  destruct (fraction n t) as [frac|] eqn:F; [|discriminate]. cbn [rbind].
  destruct (V frac eq_refl) as (_ & _ & k & p & Bk & Hk & _ & _ & _ & Hp & Pp).
  rewrite Bk, Pp. cbn [rbind].
  destruct (left_str n t elapsed) as [ls|]; [|discriminate]. cbn [rbind].
  intros H. injection H as <-. exists k, p, es, ls, rs. auto.
Qed.

Lemma known_branch_invariants_witness :
  exists t,
    Some 50 = Some t /\ 30 <= t /\ 0 < t
    /\ (forall frac, fraction 30 t = Ok frac ->
        nonneg_finite frac = true /\ float_le_Z frac 1 = true
        /\ exists k p,
            bar_length frac = Ok k /\ 0 <= k <= 10
            /\ bar_of k = str_mul "#" k ++ str_mul "-" (10 - k)
            /\ len (bar_of k) = 10
            /\ int_of_float (fmul frac (nearest_float 100)) = Ok p
            /\ 0 <= p <= 100
            /\ percentage frac = Ok (fmt_wd 3 p ++ "%"))
    /\ (forall elapsed line, format_meter 30 (Some 50) elapsed = Ok line ->
        exists k p es ls rs,
          0 <= k <= 10 /\ 0 <= p <= 100
          /\ line = known_line (bar_of k) 30 t (fmt_wd 3 p ++ "%") es ls rs).
Proof.
  apply (known_branch_invariants 30 (Some 50)); [lia | reflexivity].
Defined.

(** For a negative count the guard bounds nothing.  With [n = -5] and
    [total = -3] the guard [n > total] is false and [total] is true, so the
    known-total branch is taken with [n <= total]; the fraction is
    [5/3], the bar has 16 marks and the percentage is 166.  With [n = -1]
    and [total = 10] the fraction is negative, the bar has 11 marks and
    the percentage is -10. *)
Lemma known_branch_negative_count :
  takes_known_branch (-5) (Some (-3)) = true
  /\ fraction (-5) (-3) = Ok (S754_finite false 7505999378950827 (-52))
  /\ float_le_Z (S754_finite false 7505999378950827 (-52)) 1 = false
  /\ bar_length (S754_finite false 7505999378950827 (-52)) = Ok 16
  /\ len (bar_of 16) = 16
  /\ percentage (S754_finite false 7505999378950827 (-52)) = Ok "166%"
  /\ format_meter (-5) (Some (-3)) (nearest_float 1)
     = Ok "|################| -5/-3 166% [elapsed: 00:01 left: 00:00, -5.00 iters/sec]"
  /\ takes_known_branch (-1) (Some 10) = true
  /\ format_meter (-1) (Some 10) (nearest_float 1)
     = Ok "|-----------| -1/10 -10% [elapsed: 00:01 left: -1:59:49, -1.00 iters/sec]".
Proof. repeat split; vm_compute; reflexivity. Qed.

(** ** The percentage *)

(** [int(x)] of a float [x >= 0] is its floor: an integer is above [x]
    exactly when it is above [int(x)]. *)
Lemma int_of_float_floor (x : float) (p : Z) :
  nonneg_finite x = true -> int_of_float x = Ok p ->
  forall K, float_lt_Z x K = (p <? K).
Proof.
  intros N I K. destruct x as [s|s| |s m e]; try discriminate N.
  - injection I as <-. reflexivity.
  - destruct s; [discriminate N|].
    assert (E : p = truncate false m e) by (cbn [int_of_float] in I; congruence).
    subst p. clear I. unfold float_lt_Z.
    destruct (Z.leb_spec 0 e) as [L|L].
    + now rewrite truncate_pos_exp by lia.
    + rewrite truncate_neg_exp by lia.
      assert (P : 0 < 2 ^ (- e)) by (apply pow2_pos; lia).
      destruct (Z.ltb_spec (Zpos m) (K * 2 ^ (- e))) as [A|A];
        destruct (Z.ltb_spec (Zpos m / 2 ^ (- e)) K) as [B|B]; try reflexivity;
        exfalso.
      * assert (K * 2 ^ (- e) <= Zpos m); [|lia].
        pose proof (Z.mul_div_le (Zpos m) (2 ^ (- e)) P). nia.
      * assert (Zpos m < K * 2 ^ (- e)); [|lia].
        pose proof (Z.div_mod (Zpos m) (2 ^ (- e)) ltac:(lia)).
        pose proof (Z.mod_pos_bound (Zpos m) (2 ^ (- e)) P). nia.
Qed.

(** A number between 0 and 100 fills a field of width 3 exactly. *)
Lemma len_fmt_wd_3 (p : Z) : 0 <= p <= 100 -> len (fmt_wd 3 p) = 3.
Proof.
  intros H. assert (E : exists j, (j < 101)%nat /\ p = Z.of_nat j).
  { exists (Z.to_nat p). lia. }
  destruct E as (j & Hj & ->).
  assert (F : forallb (fun i => len (fmt_wd 3 (Z.of_nat i)) =? 3) (seq 0 101) = true)
    by (vm_compute; reflexivity).
  rewrite forallb_forall in F. apply Z.eqb_eq, F, in_seq. lia.
Qed.

(** The percentage printed for 2 out of 3 is 66, where rounding
    [100 * 2 / 3] to the nearest integer gives 67. *)
Lemma percentage_not_rounded :
  rendered_percentage 2 3 = Ok " 66%"
  /\ rounded_percentage 2 3 = " 67%"
  /\ rendered_percentage 2 3 <> Ok (rounded_percentage 2 3).
Proof.
  split; [vm_compute; reflexivity|]. split; [vm_compute; reflexivity|].
  vm_compute. discriminate.
Qed.

(** Truncation is applied to the product of two rounded floats, which can
    fall below an exact percentage: 29 out of 100 prints as 28. *)
Example percentage_29_of_100 : rendered_percentage 29 100 = Ok " 28%".
Proof. vm_compute. reflexivity. Qed.

(** C7, as the code has it: in the known-total branch, for
    [0 < n <= total], the percentage field is the double product
    [float(n) / total * 100] truncated to an integer [p] (its floor, not
    the nearest integer), with [0 <= p <= 100], right-justified to width 3
    and followed by a percent sign. *)
Theorem percentage_truncated (n t : Z) (elapsed : float) (line : string) :
  0 < n <= t ->
  format_meter n (Some t) elapsed = Ok line ->
  exists frac p bar es ls rs,
    fraction n t = Ok frac
    /\ int_of_float (fmul frac (nearest_float 100)) = Ok p
    /\ (forall K, float_lt_Z (fmul frac (nearest_float 100)) K = (p <? K))
    /\ 0 <= p <= 100
    /\ rendered_percentage n t = Ok (rjust 3 " " (fmt_d p) ++ "%")
    /\ len (rjust 3 " " (fmt_d p)) = 3
    /\ line = known_line bar n t (rjust 3 " " (fmt_d p) ++ "%") es ls rs.
Proof.
  intros [Hn Hle]. rewrite format_meter_Some.
  assert (Hb : takes_known_branch n (Some t) = true)
    by (apply takes_known_branch_iff; exists t; repeat split; lia).
  rewrite Hb.
  destruct (format_interval elapsed) as [es|]; [|discriminate]. cbn [rbind].
  destruct (rate_str n elapsed) as [rs|]; [|discriminate]. cbn [rbind].
  destruct (fraction n t) as [frac|] eqn:F; [|discriminate]. cbn [rbind].
  pose proof (fraction_unit n t frac ltac:(lia) ltac:(lia) F) as U.
  destruct (percentage_unit frac U) as (p & Ip & Hp & Pp & Np).
  destruct (bar_length frac) as [k|]; [|discriminate]. cbn [rbind].
  rewrite Pp. cbn [rbind].
  destruct (left_str n t elapsed) as [ls|]; [|discriminate]. cbn [rbind].
  intros H. injection H as <-.
  exists frac, p, (bar_of k), es, ls, rs. split; [reflexivity|].
  split; [exact Ip|]. split; [now apply int_of_float_floor|].
  split; [exact Hp|].
  split; [unfold rendered_percentage; rewrite F; exact Pp|].
  split; [now apply len_fmt_wd_3 | reflexivity].
Qed.

Lemma percentage_truncated_witness :
  exists frac p bar es ls rs,
    fraction 30 50 = Ok frac
    /\ int_of_float (fmul frac (nearest_float 100)) = Ok p
    /\ (forall K, float_lt_Z (fmul frac (nearest_float 100)) K = (p <? K))
    /\ 0 <= p <= 100
    /\ rendered_percentage 30 50 = Ok (rjust 3 " " (fmt_d p) ++ "%")
    /\ len (rjust 3 " " (fmt_d p)) = 3
    /\ "|######----| 30/50  60% [elapsed: 00:03 left: 00:02,  9.77 iters/sec]"
       = known_line bar 30 50 (rjust 3 " " (fmt_d p) ++ "%") es ls rs.
Proof.
  apply (percentage_truncated 30 50 f_3_07); [lia | vm_compute; reflexivity].
Defined.

(** ** When the meter returns *)

Lemma is_infix_app (needle a b : string) :
  is_infix needle b = true -> is_infix needle (a ++ b) = true.
Proof.
  intros H. induction a as [|c a IH]; [exact H|].
  cbn [append is_infix]. rewrite IH. apply orb_true_r.
Qed.

Lemma is_infix_known (bar : string) (n t : Z) (pct es ls rs : string) :
  is_infix "iters/sec" (known_line bar n t pct es ls rs) = true.
Proof.
  unfold known_line. do 14 apply is_infix_app. reflexivity.
Qed.

Lemma is_infix_unknown (n : Z) (es rs : string) :
  is_infix "iters/sec" (unknown_line n es rs) = true.
Proof.
  unfold unknown_line. do 5 apply is_infix_app. reflexivity.
Qed.

Lemma format_meter_iters (n : Z) (total : option Z) (elapsed : float)
    (line : string) :
  format_meter n total elapsed = Ok line -> is_infix "iters/sec" line = true.
Proof.
  destruct total as [t|]; [|discriminate]. rewrite format_meter_Some.
  destruct (format_interval elapsed) as [es|]; [|discriminate]. cbn [rbind].
  destruct (rate_str n elapsed) as [rs|]; [|discriminate]. cbn [rbind].
  destruct (takes_known_branch n (Some t)).
  - destruct (fraction n t) as [frac|]; [|discriminate]. cbn [rbind].
    destruct (bar_length frac) as [k|]; [|discriminate]. cbn [rbind].
    destruct (percentage frac) as [pct|]; [|discriminate]. cbn [rbind].
    destruct (left_str n t elapsed) as [ls|]; [|discriminate]. cbn [rbind].
    intros H. injection H as <-. apply is_infix_known.
  - intros H. injection H as <-. apply is_infix_unknown.
Qed.

Lemma format_interval_nonneg (t : float) :
  nonneg_finite t = true -> exists s, format_interval t = Ok s.
Proof.
  intros N. destruct (int_of_float_nonneg t N) as (secs & I & _).
  rewrite (format_interval_eq t secs I). eauto.
Qed.

Lemma rate_str_ok (n : Z) (fn elapsed : float) :
  float_of_int n = Ok fn -> exists rs, rate_str n elapsed = Ok rs.
Proof.
  intros F. unfold rate_str. destruct (float_truth elapsed) eqn:T; [|eauto].
  rewrite F. cbn [rbind]. unfold float_div. rewrite T. cbn [rbind]. eauto.
Qed.

Lemma float_of_int_nonneg (z : Z) (f : float) :
  0 <= z -> float_of_int z = Ok f ->
  f = S754_zero false \/ exists m e, f = S754_finite false m e.
Proof.
  intros Hz F. destruct (Z.eq_dec z 0) as [->|N].
  - left. unfold float_of_int in F. rewrite nearest_float_zero in F. congruence.
  - right. destruct (float_of_int_pos z f ltac:(lia) F) as (m & e & -> & _).
    eauto.
Qed.

(** The remaining-time field when no time has elapsed. *)
Lemma left_str_zero (n t : Z) (s : bool) (ft : float) :
  0 <= n <= t -> float_of_int t = Ok ft ->
  exists ls, left_str n t (S754_zero s) = Ok ls.
Proof.
  intros [Hn Hle] Ft. unfold left_str.
  destruct (Z.eqb_spec n 0) as [E|N]; cbn [negb]; [eauto|].
  destruct (float_of_int_mono n t ft ltac:(lia) Ft)
    as (ma & ea & mb & eb & Fa & _).
  rewrite Fa. cbn [rbind]. unfold float_div. cbn [float_truth rbind].
  assert (D : exists d, float_of_int (t - n) = Ok d
                        /\ (d = S754_zero false \/ exists m e, d = S754_finite false m e)).
  { destruct (Z.eq_dec (t - n) 0) as [->|P].
    - exists (S754_zero false). split; [reflexivity | now left].
    - destruct (float_of_int_mono (t - n) t ft ltac:(lia) Ft)
        as (md & ed & _ & _ & Fd & _).
      exists (S754_finite false md ed). split; [exact Fd | right; eauto]. }
  destruct D as (d & -> & [->|(m & e & ->)]); cbn [rbind]; eexists; reflexivity.
Qed.

(** Out of the range of floats, a count makes the rate computation
    raise, although [total == 0] selects the unknown-total branch. *)
Lemma format_meter_overflow :
  format_meter (2 ^ 1024) (Some 0) (nearest_float 1) = Raise OverflowError.
Proof. vm_compute. reflexivity. Qed.

(** C5, within the range of floats: for a count [n >= 0] that converts to
    a float, an integer [total] and a finite [elapsed >= 0],
    [format_meter] returns a line when [elapsed == 0], [n == 0] or
    [total == 0] (given that [total] converts to a float too); when
    [n > total] or [total == 0] the line has the unknown-total shape; and
    every line returned contains [iters/sec]. *)
Theorem format_meter_safe (n t : Z) (elapsed fn : float) :
  0 <= n ->
  float_of_int n = Ok fn ->
  nonneg_finite elapsed = true ->
  (forall ft, float_of_int t = Ok ft ->
      float_truth elapsed = false \/ n = 0 \/ t = 0 ->
      exists line, format_meter n (Some t) elapsed = Ok line)
  /\ (n > t \/ t = 0 ->
      exists es rs,
        format_interval elapsed = Ok es /\ rate_str n elapsed = Ok rs
        /\ format_meter n (Some t) elapsed = Ok (unknown_line n es rs))
  /\ (forall total line,
      format_meter n total elapsed = Ok line ->
      is_infix "iters/sec" line = true).
Proof.
  intros Hn Fn Ne.
  destruct (format_interval_nonneg elapsed Ne) as (es & Es).
  destruct (rate_str_ok n fn elapsed Fn) as (rs & Rs).
  assert (U : takes_known_branch n (Some t) = false ->
              format_meter n (Some t) elapsed = Ok (unknown_line n es rs)).
  { intros B. rewrite format_meter_Some, Es, Rs, B. reflexivity. }
  split; [|split].
  - intros ft Ft Z.
    destruct (takes_known_branch n (Some t)) eqn:B; [|eauto].
    pose proof B as B'. apply takes_known_branch_iff in B'.
    destruct B' as (t' & E & Hle & Ht). injection E as <-.
    rewrite format_meter_Some, Es, Rs, B. cbn [rbind].
    assert (F : exists frac, fraction n t = Ok frac).
    { unfold fraction. rewrite Fn, Ft. cbn [rbind].
      destruct (float_of_int_pos t ft ltac:(lia) Ft) as (mt & et & -> & _).
      unfold float_div. cbn [float_truth]. eauto. }
    destruct F as (frac & F). rewrite F. cbn [rbind].
    pose proof (fraction_unit n t frac ltac:(lia) ltac:(lia) F) as Uf.
    destruct (bar_length_unit frac Uf) as (k & -> & _).
    destruct (percentage_unit frac Uf) as (p & _ & _ & -> & _).
    cbn [rbind].
    assert (L : exists ls, left_str n t elapsed = Ok ls).
    { destruct Z as [Z|[Z|Z]]; [| |lia].
      - destruct elapsed as [s|s| |s m e]; try discriminate Z.
        now apply (left_str_zero n t s ft).
      - subst n. unfold left_str. cbn. eauto. }
    destruct L as (ls & ->). cbn [rbind]. eauto.
  - intros Z. exists es, rs. split; [exact Es|]. split; [exact Rs|].
    apply U. destruct (takes_known_branch n (Some t)) eqn:B; [|reflexivity].
    apply takes_known_branch_iff in B.
    destruct B as (t' & E & Hle & Ht). injection E as <-. lia.
  - intros total line. apply format_meter_iters.
Qed.

Lemma format_meter_safe_witness :
  (forall ft, float_of_int 50 = Ok ft ->
      float_truth f_3_07 = false \/ 0 = 0 \/ 50 = 0 ->
      exists line, format_meter 0 (Some 50) f_3_07 = Ok line)
  /\ (0 > 50 \/ 50 = 0 ->
      exists es rs,
        format_interval f_3_07 = Ok es /\ rate_str 0 f_3_07 = Ok rs
        /\ format_meter 0 (Some 50) f_3_07 = Ok (unknown_line 0 es rs))
  /\ (forall total line,
      format_meter 0 total f_3_07 = Ok line ->
      is_infix "iters/sec" line = true).
Proof.
  apply (format_meter_safe 0 50 f_3_07 (S754_zero false));
    [lia | reflexivity | vm_compute; reflexivity].
Defined.

(* ================================================================== *)
(** * Further properties of the generator *)
(* ================================================================== *)

(** ** The shape of a run *)

(** Events of the body of a run: values yielded, status lines (each opens
    with a carriage return) and flushes. *)
Definition is_body {A : Type} (e : event A) : bool :=
  match e with
  | Yield _ => true
  | FileWrite s => prefix CR s
  | FileFlush => true
  | StdoutWrite _ => false
  end.

Definition body_only {A : Type} (tr : list (event A)) : bool := forallb is_body tr.

(** What [sys.stdout] receives.  The events record through which name a
    write was made: [file.write] or [sys.stdout.write].  The [file]
    argument of [tqdm] is [sys.stderr] by default, but it may be any
    stream, [sys.stdout] itself included ([file_is_stdout] true): every
    write on the sink is then a write on [sys.stdout]. *)
Fixpoint stdout_receives {A : Type} (file_is_stdout : bool)
    (tr : list (event A)) : list string :=
  match tr with
  | [] => []
  | StdoutWrite s :: tr' => s :: stdout_receives file_is_stdout tr'
  | FileWrite s :: tr' =>
      if file_is_stdout then s :: stdout_receives file_is_stdout tr'
      else stdout_receives file_is_stdout tr'
  | _ :: tr' => stdout_receives file_is_stdout tr'
  end.

(** What is written on the sink. *)
Fixpoint file_receives {A : Type} (tr : list (event A)) : list string :=
  match tr with
  | [] => []
  | FileWrite s :: tr' => s :: file_receives tr'
  | _ :: tr' => file_receives tr'
  end.

(** The closing events of a run that completes. *)
Definition closing {A : Type} (cfg : config) : list (event A) :=
  if leave cfg then [FileWrite NL] else [StdoutWrite CR].

Lemma body_only_app (A : Type) (a b : list (event A)) :
  body_only (a ++ b) = body_only a && body_only b.
Proof. apply forallb_app. Qed.

Lemma status_line_body (A : Type) (p : StatusPrinter) (s : string) :
  body_only [@FileWrite A (status_line p s); FileFlush] = true.
Proof.
  unfold body_only, status_line, CR. cbn.
  destruct (ascii_dec "013" "013"); [|congruence].
  now destruct (s ++ _).
Qed.

Lemma stdout_receives_app (A : Type) (b : bool) (a c : list (event A)) :
  stdout_receives b (a ++ c) = (stdout_receives b a ++ stdout_receives b c)%list.
Proof.
  induction a as [|e a IH]; [reflexivity|].
  destruct e; cbn [app stdout_receives]; try exact IH; [|now rewrite IH].
  destruct b; [now rewrite IH | exact IH].
Qed.

Lemma file_receives_app (A : Type) (a c : list (event A)) :
  file_receives (a ++ c) = (file_receives a ++ file_receives c)%list.
Proof.
  induction a as [|e a IH]; [reflexivity|].
  destruct e; cbn [app file_receives]; try exact IH. now rewrite IH.
Qed.

(** The body of a run makes no write through [sys.stdout.write]: what
    [sys.stdout] receives from it is nothing, or what the sink receives
    when the sink is [sys.stdout]. *)
Lemma stdout_receives_body (A : Type) (b : bool) (tr : list (event A)) :
  body_only tr = true ->
  stdout_receives b tr = if b then file_receives tr else [].
Proof.
  induction tr as [|e tr IH]; [now destruct b|].
  unfold body_only. cbn [forallb]. intros H. apply andb_prop in H.
  destruct H as [He Ht]. specialize (IH Ht).
  destruct e; cbn [stdout_receives file_receives]; try exact IH.
  - rewrite IH. now destruct b.
  - discriminate He.
Qed.

Section RunShape.

Variable A : Type.
Variable clock : nat -> float.
Variable cfg : config.
Variable total' : option Z.
Variable pfx : string.

Implicit Types (w : world A) (st : locals).

(** The loop only adds body events and reads the clock at most once per
    item. *)
Lemma loop_extends (xs : list A) :
  forall st w r w',
    loop clock cfg total' pfx xs st w = (r, w') ->
    exists ev,
      trace w' = (trace w ++ ev)%list /\ body_only ev = true
      /\ (ticks w <= ticks w' <= ticks w + List.length xs)%nat.
Proof.
  induction xs as [|x xs IH]; intros st w r w' H.
  - cbn in H. inversion H; subst. exists []. rewrite app_nil_r.
    repeat split; cbn; lia.
  - cbn [loop] in H. unfold bind at 1 in H. unfold emit in H.
    unfold bind in H.
    pose proof (after_yield_outcome A clock cfg total' pfx st
                  (mkWorld (trace w ++ [Yield x]) (ticks w))) as O.
    destruct (after_yield _ _ _ _ _ _) as [[st1|e] w1] eqn:Hs.
    + inversion O; subst; cbn [trace ticks] in *.
      * apply IH in H. destruct H as (ev & E & B & T). cbn [trace ticks] in *.
        exists (Yield x :: ev). rewrite E, <- app_assoc.
        split; [reflexivity|]. split; [exact B|]. cbn [List.length]. lia.
      * apply IH in H. destruct H as (ev & E & B & T). cbn [trace ticks] in *.
        exists ([Yield x] ++ [FileWrite (status_line (sp st) (pfx ++ m)); FileFlush]
                ++ ev)%list.
        rewrite E, <- !app_assoc. split; [reflexivity|].
        split; [|cbn [List.length]; lia].
        rewrite !body_only_app, status_line_body, B. reflexivity.
    + inversion H; subst. inversion O; subst. cbn [trace ticks].
      exists [Yield x]. repeat split; cbn [List.length]; lia.
Qed.

Lemma finish_extends st w r w' :
  finish clock cfg total' pfx st w = (r, w') ->
  exists ev,
    trace w' =
      (trace w ++ ev
       ++ match r with Ok _ => closing cfg | Raise _ => [] end)%list
    /\ body_only ev = true
    /\ (ticks w <= ticks w' <= S (ticks w))%nat.
Proof.
  rewrite finish_eq. unfold closing. destruct (leave cfg); cbn [negb].
  - destruct (last_print_n st <? n st).
    + destruct (format_meter _ _ _) as [m|x]; intros H; inversion H; subst;
        cbn [trace ticks].
      * exists [FileWrite (status_line (sp st) (pfx ++ m)); FileFlush].
        split; [reflexivity|]. split; [apply status_line_body | lia].
      * exists []. rewrite app_nil_r. repeat split; lia.
    + intros H; inversion H; subst; cbn [trace ticks].
      exists []. repeat split; lia.
  - intros H; inversion H; subst; cbn [trace ticks].
    exists [FileWrite (status_line (sp st) ""); FileFlush].
    split; [reflexivity|]. split; [apply status_line_body | lia].
Qed.

End RunShape.

(** The first status line and the rest of a run. *)
Lemma run_first_line (A : Type) clock (it : iterable A) cfg r w' m0 :
  format_meter 0 (resolve_total it cfg) (nearest_float 0) = Ok m0 ->
  run clock it cfg = (r, w') ->
  exists ev,
    trace w' =
      ([FileWrite (CR ++ prefix_of cfg ++ m0); FileFlush] ++ ev
       ++ match r with Ok _ => closing cfg | Raise _ => [] end)%list
    /\ body_only ev = true
    /\ (1 <= ticks w' <= List.length (items it) + 2)%nat.
Proof.
  intros M0 H. apply run_stages in H. cbv zeta in H.
  rewrite render_eq, M0, print_status_eq in H. cbn [trace ticks app] in H.
  assert (S0 : status_line StatusPrinter_init (prefix_of cfg ++ m0)
               = CR ++ prefix_of cfg ++ m0).
  { unfold status_line, StatusPrinter_init. cbn [last_printed_len].
    replace (Z.max (0 - len (prefix_of cfg ++ m0)) 0) with 0 by (unfold len; lia).
    cbn [str_mul Z.to_nat repeat_string].
    generalize (prefix_of cfg ++ m0). intros s. unfold CR. cbn [append].
    f_equal. induction s as [|c s IH]; cbn [append]; [reflexivity | now rewrite IH]. }
  rewrite S0 in H.
  destruct (loop _ _ _ _ _ _ _) as [[st|e] w2] eqn:L.
  - apply loop_extends in L. destruct L as (ev & E & B & T).
    apply finish_extends in H. destruct H as (ev2 & E2 & B2 & T2).
    cbn [trace ticks] in *. exists (ev ++ ev2)%list.
    rewrite E2, E, <- !app_assoc. split; [reflexivity|].
    split; [rewrite body_only_app, B, B2; reflexivity | lia].
  - destruct H as [-> ->]. apply loop_extends in L.
    destruct L as (ev & E & B & T). cbn [trace ticks] in *.
    exists ev. rewrite E, app_nil_r. split; [reflexivity|]. split; [exact B | lia].
Qed.

(** ** Runs that raise *)

(** A run that raises in the middle: the clock becomes infinite at its
    third reading, so the second status line cannot be formatted. *)
Definition broken_clock (i : nat) : float :=
  if (i <? 2)%nat then nearest_float (Z.of_nat i) else S754_infinity false.

Definition broken_world : world Z :=
  snd (run broken_clock sample_items sample_cfg).

Lemma broken_run :
  run broken_clock sample_items sample_cfg = (Raise OverflowError, broken_world)
  /\ yields (trace broken_world) = [1; 2].
Proof. split; vm_compute; reflexivity. Qed.

(** X1: whether the run completes or raises, the values handed to the
    consumer are an initial segment of the items of the iterable, in
    order: nothing is changed, dropped in the middle, repeated or
    invented. *)
Theorem tqdm_yields_prefix (A : Type) (clock : nat -> float)
    (it : iterable A) (cfg : config) (r : result unit) (w' : world A) :
  run clock it cfg = (r, w') ->
  exists rest, items it = (yields (trace w') ++ rest)%list.
Proof.
  intros H. apply run_stages in H. cbv zeta in H.
  rewrite render_eq in H.
  destruct (format_meter 0 _ _) as [m|e].
  - rewrite print_status_eq in H. cbn [trace ticks] in H.
    destruct (loop _ _ _ _ _ _ _) as [[st|e] w2] eqn:L.
    + apply finish_yields in H. rewrite H.
      apply loop_yields in L. destruct L as [_ L].
      rewrite (L st eq_refl). exists []. cbn. now rewrite app_nil_r.
    + destruct H as [_ ->]. apply loop_yields in L.
      destruct L as [(pre & suf & E & Y) _]. cbn in Y. exists suf.
      now rewrite Y.
  - destruct H as [_ ->]. cbn. now exists (items it).
Qed.

Lemma tqdm_yields_prefix_witness :
  exists rest, items sample_items = (yields (trace broken_world) ++ rest)%list.
Proof.
  apply (tqdm_yields_prefix Z broken_clock sample_items sample_cfg
           (Raise OverflowError)).
  vm_compute. reflexivity.
Defined.

(** X2: an iterable without [len()] and no [total] argument: the first
    [format_meter] call receives [total=None], its guard raises
    [TypeError], and the run ends before anything is written, before the
    clock is read and before any item is pulled. *)
Theorem tqdm_unsized_raises (A : Type) (clock : nat -> float)
    (it : iterable A) (cfg : config) :
  total cfg = None -> it_len it = None ->
  run clock it cfg = (Raise TypeError, mkWorld [] 0).
Proof.
  intros Ht Hl. unfold run, tqdm, bind, resolve_total. rewrite Ht, Hl.
  rewrite render_eq. reflexivity.
Qed.

Lemma tqdm_unsized_raises_witness :
  run sample_clock (mkIterable [1; 2; 3] None) sample_cfg
  = (Raise TypeError, mkWorld [] 0).
Proof.
  apply (tqdm_unsized_raises Z sample_clock (mkIterable [1; 2; 3] None) sample_cfg);
    reflexivity.
Defined.

(** ** The first status line *)

Definition first_meter (t : Z) : string :=
  if t =? 0 then "0 [elapsed: 00:00, ? iters/sec]"
  else "|----------| 0/" ++ fmt_d t
       ++ "   0% [elapsed: 00:00 left: ?, ? iters/sec]".

Lemma format_meter_first (t : Z) (ft : float) :
  0 <= t -> float_of_int t = Ok ft ->
  format_meter 0 (Some t) (nearest_float 0) = Ok (first_meter t).
Proof.
  intros Ht Ft. rewrite format_meter_Some. unfold first_meter.
  change (format_interval (nearest_float 0)) with (Ok (A:=string) "00:00").
  change (rate_str 0 (nearest_float 0)) with (Ok (A:=string) "?").
  cbn [rbind]. unfold takes_known_branch, guard_total.
  destruct (Z.gtb_spec 0 t); [lia|].
  destruct (Z.eqb_spec t 0) as [E|N]; cbn [negb]; [reflexivity|].
  destruct (float_of_int_pos t ft ltac:(lia) Ft) as (m & e & -> & _).
  unfold fraction. rewrite Ft.
  change (float_of_int 0) with (Ok (S754_zero false)). cbn [rbind].
  unfold float_div. cbn [float_truth rbind fquo SFdiv xorb].
  change (bar_length (S754_zero false)) with (Ok (A:=Z) 0).
  change (percentage (S754_zero false)) with (Ok (A:=string) "  0%").
  reflexivity.
Qed.

(** X3: for an iterable whose resolved total [t >= 0] converts to a float,
    the run starts by writing a carriage return, the prefix and the meter
    for count 0 (an empty bar, [0/t], [0%], unknown remaining time and
    rate; for [t = 0] the unknown-total line), and flushes; everything
    else comes after. *)
Theorem tqdm_first_write (A : Type) (clock : nat -> float)
    (it : iterable A) (cfg : config) (t : Z) (ft : float)
    (r : result unit) (w' : world A) :
  resolve_total it cfg = Some t -> 0 <= t -> float_of_int t = Ok ft ->
  run clock it cfg = (r, w') ->
  exists rest,
    trace w' =
      FileWrite (CR ++ prefix_of cfg ++ first_meter t) :: FileFlush :: rest.
Proof.
  intros Rt Ht Ft H.
  pose proof (format_meter_first t ft Ht Ft) as M. rewrite <- Rt in M.
  destruct (run_first_line A clock it cfg r w' _ M H) as (ev & E & _).
  rewrite E. cbn [app]. eauto.
Qed.

Lemma tqdm_first_write_witness :
  exists rest,
    trace sample_world =
      FileWrite (CR ++ prefix_of sample_cfg ++ first_meter 3) :: FileFlush :: rest.
Proof.
  apply (tqdm_first_write Z sample_clock sample_items sample_cfg 3
           (nearest_float 3) (Ok tt)).
  - reflexivity.
  - lia.
  - vm_compute. reflexivity.
  - vm_compute. reflexivity.
Defined.

(** ** What is written where *)

(** X4: a run is a body made only of values yielded, status lines (each
    starting with a carriage return) and flushes, followed, exactly when
    the run completes, by one closing event: a newline on the sink with
    [leave] true, a bare carriage return written through
    [sys.stdout.write] with [leave] false.  Hence the newline is never
    written before the last item was consumed, and
    - when [file] is a stream other than [sys.stdout], [sys.stdout]
      receives nothing with [leave] true or from a run that raises, and
      one carriage return otherwise;
    - when [file] is [sys.stdout] itself, [sys.stdout] receives every
      write made on the sink, in order, and after them that carriage
      return. *)
Theorem tqdm_run_shape (A : Type) (clock : nat -> float)
    (it : iterable A) (cfg : config) (r : result unit) (w' : world A) :
  run clock it cfg = (r, w') ->
  let last :=
    match r with
    | Ok _ => if leave cfg then [] else [CR]
    | Raise _ => []
    end in
  (exists body,
      trace w' = (body ++ match r with Ok _ => closing cfg | Raise _ => [] end)%list
      /\ body_only body = true)
  /\ stdout_receives false (trace w') = last
  /\ stdout_receives true (trace w') = (file_receives (trace w') ++ last)%list.
Proof.
  intros H last.
  assert (S : exists body,
      trace w' = (body ++ match r with Ok _ => closing cfg | Raise _ => [] end)%list
      /\ body_only body = true).
  { destruct (format_meter 0 (resolve_total it cfg) (nearest_float 0))
      as [m0|e] eqn:M.
    - destruct (run_first_line A clock it cfg r w' m0 M H) as (ev & E & B & _).
      exists ([FileWrite (CR ++ prefix_of cfg ++ m0); FileFlush] ++ ev)%list.
      rewrite E, <- app_assoc. split; [reflexivity|].
      rewrite body_only_app, B, andb_true_r. unfold body_only, CR. cbn.
      destruct (ascii_dec "013" "013"); [|congruence].
      now destruct (prefix_of cfg ++ m0).
    - apply run_stages in H. cbv zeta in H. rewrite render_eq, M in H.
      destruct H as [-> ->]. exists []. split; reflexivity. }
  split; [exact S|]. destruct S as (body & -> & B).
  rewrite !stdout_receives_app, file_receives_app,
    !(stdout_receives_body A _ body B).
  unfold last, closing. destruct r as [u|x].
  - destruct (leave cfg); cbn [app stdout_receives file_receives].
    + split; [reflexivity | now rewrite !app_nil_r].
    + split; [reflexivity | now rewrite !app_nil_r].
  - cbn [app stdout_receives file_receives]. split; [reflexivity|].
    now rewrite !app_nil_r.
Qed.

Lemma tqdm_run_shape_witness :
  (exists body,
      trace clearing_world = (body ++ closing clearing_cfg)%list
      /\ body_only body = true)
  /\ stdout_receives false (trace clearing_world) = [CR]
  /\ stdout_receives true (trace clearing_world)
     = (file_receives (trace clearing_world) ++ [CR])%list.
Proof.
  apply (tqdm_run_shape Z sample_clock sample_items clearing_cfg (Ok tt)
           clearing_world).
  vm_compute. reflexivity.
Defined.

(** X5: [time.time()] is called at most once per item, plus once at the
    start and once at the end. *)
Theorem tqdm_clock_reads (A : Type) (clock : nat -> float)
    (it : iterable A) (cfg : config) (r : result unit) (w' : world A) :
  run clock it cfg = (r, w') ->
  (ticks w' <= List.length (items it) + 2)%nat.
Proof.
  intros H.
  destruct (format_meter 0 (resolve_total it cfg) (nearest_float 0))
    as [m0|e] eqn:M.
  - destruct (run_first_line A clock it cfg r w' m0 M H) as (_ & _ & _ & T). lia.
  - apply run_stages in H. cbv zeta in H. rewrite render_eq, M in H.
    destruct H as [_ ->]. cbn. lia.
Qed.

Lemma tqdm_clock_reads_witness :
  (ticks sample_world <= List.length (items sample_items) + 2)%nat.
Proof.
  apply (tqdm_clock_reads Z sample_clock sample_items sample_cfg (Ok tt)).
  vm_compute. reflexivity.
Defined.

(** ** How often the loop prints *)

Section Counts.

Variable A : Type.
Variable clock : nat -> float.
Variable cfg : config.
Variable total' : option Z.
Variable pfx : string.

Implicit Types (w : world A) (st : locals).

(** The count check fails: the clock is not read and nothing is printed. *)
Lemma after_yield_not_due st w :
  n st + 1 - last_print_n st < miniters cfg ->
  after_yield clock cfg total' pfx st w =
    (Ok (mkLocals (sp st) (start_t st) (last_print_t st) (last_print_n st)
           (n st + 1)), w).
Proof.
  intros H. unfold after_yield.
  destruct (Z.geb_spec (n st + 1 - last_print_n st) (miniters cfg)); [lia|].
  reflexivity.
Qed.

(** Both checks pass: the line is printed, unless it cannot be formatted. *)
Lemma after_yield_due st w :
  n st + 1 - last_print_n st >= miniters cfg ->
  float_ge (fsub (clock (ticks w)) (last_print_t st)) (mininterval cfg) = true ->
  after_yield clock cfg total' pfx st w =
    match format_meter (n st + 1) total' (fsub (clock (ticks w)) (start_t st)) with
    | Ok m =>
        (Ok (mkLocals (mkStatusPrinter (len (pfx ++ m))) (start_t st)
               (clock (ticks w)) (n st + 1) (n st + 1)),
         mkWorld (trace w ++ [FileWrite (status_line (sp st) (pfx ++ m)); FileFlush])
           (S (ticks w)))
    | Raise x => (Raise x, mkWorld (trace w) (S (ticks w)))
    end.
Proof.
  intros H T. unfold after_yield.
  destruct (Z.geb_spec (n st + 1 - last_print_n st) (miniters cfg)); [|lia].
  unfold bind at 1, time_time; cbn [trace ticks]. rewrite T.
  unfold bind. rewrite render_eq.
  destruct (format_meter _ _ _); [|reflexivity].
  rewrite print_status_eq. reflexivity.
Qed.

(** A loop too short to reach [miniters] yields its items and does nothing
    else. *)
Lemma loop_quiet (xs : list A) :
  forall st w,
    n st - last_print_n st + Z.of_nat (List.length xs) < miniters cfg ->
    loop clock cfg total' pfx xs st w =
      (Ok (mkLocals (sp st) (start_t st) (last_print_t st) (last_print_n st)
             (n st + Z.of_nat (List.length xs))),
       mkWorld (trace w ++ map Yield xs) (ticks w)).
Proof.
  induction xs as [|x xs IH]; intros st w H.
  - cbn. unfold ret. rewrite app_nil_r, Z.add_0_r.
    now destruct st, w.
  - cbn [List.length] in *. rewrite Nat2Z.inj_succ in *.
    cbn [loop]. unfold bind at 1. unfold emit. unfold bind.
    rewrite after_yield_not_due by (cbn [n last_print_n]; lia).
    rewrite IH by (cbn [n last_print_n]; lia).
    cbn [sp start_t last_print_t last_print_n n trace ticks map].
    rewrite <- app_assoc. do 3 f_equal. lia.
Qed.

(** A clock that has always advanced by [mininterval] since any earlier
    reading. *)
Definition steady : Prop :=
  forall i j, (j < i)%nat ->
    float_ge (fsub (clock i) (clock j)) (mininterval cfg) = true.

(** With a steady clock the loop prints each time the count has advanced
    by [miniters]. *)
Lemma loop_exact (xs : list A) :
  0 < miniters cfg -> steady ->
  forall st w st' w',
    (exists j, (j < ticks w)%nat /\ last_print_t st = clock j) ->
    0 <= n st - last_print_n st < miniters cfg ->
    loop clock cfg total' pfx xs st w = (Ok st', w') ->
    renders (trace w') - renders (trace w)
      = (n st - last_print_n st + Z.of_nat (List.length xs)) / miniters cfg
    /\ n st' - last_print_n st'
       = (n st - last_print_n st + Z.of_nat (List.length xs)) mod miniters cfg
    /\ n st' = n st + Z.of_nat (List.length xs).
Proof.
  intros Hk Hs. induction xs as [|x xs IH]; intros st w st' w' Hj Hd H.
  - cbn in H. inversion H; subst. cbn [List.length Z.of_nat].
    rewrite !Z.add_0_r, Z.div_small, Z.mod_small by lia. lia.
  - cbn [List.length]. rewrite Nat2Z.inj_succ.
    cbn [loop] in H. unfold bind at 1 in H. unfold emit in H. unfold bind in H.
    destruct Hj as (j & Hj & Ej).
    destruct (Z_lt_le_dec (n st + 1 - last_print_n st) (miniters cfg)) as [L|G].
    + rewrite after_yield_not_due in H by exact L.
      apply IH in H; cbn [n last_print_n last_print_t trace ticks] in *.
      * rewrite renders_app in H. cbn [renders] in H.
        replace (n st - last_print_n st + Z.succ (Z.of_nat (List.length xs)))
          with (n st + 1 - last_print_n st + Z.of_nat (List.length xs)) by lia.
        destruct H as (R & M & N). rewrite <- R, <- M, N. lia.
      * exists j. auto.
      * lia.
    + assert (E : n st + 1 - last_print_n st = miniters cfg) by lia.
      rewrite after_yield_due in H.
      2:{ cbn [trace ticks]. lia. }
      2:{ cbn [trace ticks]. rewrite Ej. now apply Hs. }
      cbn [trace ticks] in H.
      destruct (format_meter _ _ _) as [m|e]; [|discriminate H].
      apply IH in H; cbn [n last_print_n last_print_t trace ticks] in *.
      * rewrite !renders_app in H. cbn [renders] in H.
        replace (n st + 1 - (n st + 1)) with 0 in H by lia.
        replace (n st - last_print_n st + Z.succ (Z.of_nat (List.length xs)))
          with (Z.of_nat (List.length xs) + 1 * miniters cfg) by lia.
        rewrite Z.div_add, Z.mod_add by lia.
        rewrite Z.add_0_l in H. destruct H as (R & M & N).
        rewrite <- R, <- M, N. lia.
      * exists (ticks w). split; [lia | reflexivity].
      * lia.
Qed.

End Counts.

(** A configuration whose [miniters] exceeds the three sample items, with
    [leave] false. *)
Definition sparse_cfg : config :=
  mkConfig "" None false (nearest_float 0) 10.

Definition sparse_world : world Z :=
  snd (run sample_clock sample_items sparse_cfg).

(** X6: when the iterable has fewer items than [miniters], the loop never
    reads the clock and prints nothing: after the first status line the
    trace is just the items.  With [leave] false the run then completes by
    clearing that first line (as many spaces as its text was long) and
    writing the carriage return on [sys.stdout], having read the clock
    once. *)
Theorem tqdm_below_miniters (A : Type) (clock : nat -> float)
    (it : iterable A) (cfg : config) (m0 : string)
    (r : result unit) (w' : world A) :
  Z.of_nat (List.length (items it)) < miniters cfg ->
  format_meter 0 (resolve_total it cfg) (nearest_float 0) = Ok m0 ->
  run clock it cfg = (r, w') ->
  exists tail,
    trace w' =
      ([FileWrite (CR ++ prefix_of cfg ++ m0); FileFlush]
       ++ map Yield (items it) ++ tail)%list
    /\ yields tail = []
    /\ (leave cfg = false ->
        r = Ok tt /\ ticks w' = 1%nat
        /\ tail = [FileWrite (CR ++ str_mul " " (len (prefix_of cfg ++ m0)));
                   FileFlush; StdoutWrite CR]).
Proof.
  intros HL M0 H. apply run_stages in H. cbv zeta in H.
  rewrite render_eq, M0, print_status_eq in H. cbn [trace ticks app] in H.
  rewrite loop_quiet in H by (cbn [n last_print_n]; lia).
  cbn [trace ticks sp] in H.
  assert (S0 : status_line StatusPrinter_init (prefix_of cfg ++ m0)
               = CR ++ prefix_of cfg ++ m0).
  { unfold status_line, StatusPrinter_init. cbn [last_printed_len].
    replace (Z.max (0 - len (prefix_of cfg ++ m0)) 0) with 0 by (unfold len; lia).
    cbn [str_mul Z.to_nat repeat_string].
    generalize (prefix_of cfg ++ m0). intros s. unfold CR. cbn [append].
    f_equal. induction s as [|c s IH]; cbn [append]; [reflexivity | now rewrite IH]. }
  rewrite S0 in H. rewrite finish_eq in H.
  cbn [sp n last_print_n start_t trace ticks] in H. clear M0 S0.
  destruct (leave cfg); cbn [negb] in H.
  - destruct (0 <? 0 + Z.of_nat (List.length (items it))).
    + destruct (format_meter (0 + _) _ _) as [m|e]; inversion H; subst;
        cbn [trace].
      * eexists. cbn [app].
        split; [reflexivity|]. split; [reflexivity | discriminate].
      * exists []. rewrite app_nil_r. cbn [app].
        split; [reflexivity|]. split; [reflexivity | discriminate].
    + inversion H; subst; cbn [trace]. eexists. cbn [app].
      split; [reflexivity|]. split; [reflexivity | discriminate].
  - inversion H; subst; cbn [trace ticks]. eexists. cbn [app]. split; [reflexivity|]. split; [reflexivity|]. intros _.
    split; [reflexivity|]. split; [reflexivity|].
    unfold status_line. cbn [last_printed_len append].
    rewrite Z.sub_0_r.
    replace (Z.max (len (prefix_of cfg ++ m0)) 0) with (len (prefix_of cfg ++ m0))
      by (unfold len; lia).
    reflexivity.
Qed.

Lemma tqdm_below_miniters_witness :
  exists tail,
    trace sparse_world =
      ([FileWrite (CR ++ prefix_of sparse_cfg ++ first_meter 3); FileFlush]
       ++ map Yield (items sample_items) ++ tail)%list
    /\ yields tail = []
    /\ (leave sparse_cfg = false ->
        Ok tt = Ok tt /\ ticks sparse_world = 1%nat
        /\ tail = [FileWrite (CR ++ str_mul " "
                                       (len (prefix_of sparse_cfg ++ first_meter 3)));
                   FileFlush; StdoutWrite CR]).
Proof.
  apply (tqdm_below_miniters Z sample_clock sample_items sparse_cfg
           (first_meter 3) (Ok tt) sparse_world).
  - reflexivity.
  - vm_compute. reflexivity.
  - vm_compute. reflexivity.
Defined.

(** A clock that stands still, with [mininterval=0]: every reading is
    at least [mininterval] after any other. *)
Definition frozen_clock (i : nat) : float := S754_zero false.

Definition eager_cfg : config := mkConfig "" None true (nearest_float 0) 2.

Definition eager_world : world Z :=
  snd (run frozen_clock sample_items eager_cfg).

(** X7: with [miniters = k > 0] and a clock that always passes the
    [mininterval] check, a run over [L] items that completes prints
    exactly [floor(L / k)] lines in the loop, after the first line; the
    end adds one more with [leave] false (the cleared line), and with
    [leave] true only when [k] does not divide [L] (the closing render). *)
Theorem tqdm_render_count (A : Type) (clock : nat -> float)
    (it : iterable A) (cfg : config) (w' : world A) :
  0 < miniters cfg ->
  steady clock cfg ->
  run clock it cfg = (Ok tt, w') ->
  let L := Z.of_nat (List.length (items it)) in
  renders (trace w') =
    1 + L / miniters cfg
    + (if leave cfg then (if L mod miniters cfg =? 0 then 0 else 1) else 1).
Proof.
  intros Hk Hs H L. apply run_stages in H. cbv zeta in H.
  rewrite render_eq in H.
  destruct (format_meter 0 _ _) as [m0|e]; [|now destruct H].
  rewrite print_status_eq in H. cbn [trace ticks app] in H.
  destruct (loop _ _ _ _ _ _ _) as [[st|e] w2] eqn:Lp; [|now destruct H].
  apply (loop_exact A clock cfg _ _ _ Hk Hs) in Lp;
    cbn [n last_print_n last_print_t trace ticks] in *.
  2:{ exists 0%nat. split; [lia | reflexivity]. }
  2:{ lia. }
  cbn [renders] in Lp. rewrite Z.sub_0_r, Z.add_0_l in Lp.
  destruct Lp as (R & M & N). fold L in R, M, N.
  pose proof (Z.mod_pos_bound L (miniters cfg) Hk) as B.
  rewrite finish_eq in H. destruct (leave cfg); cbn [negb] in H.
  - destruct (Z.ltb_spec (last_print_n st) (n st)) as [Lt|Ge].
    + destruct (format_meter _ _ _) as [m|e]; [|discriminate H].
      inversion H; subst w'. cbn [trace]. rewrite renders_app. cbn [renders].
      destruct (Z.eqb_spec (L mod miniters cfg) 0); lia.
    + inversion H; subst w'. cbn [trace]. rewrite renders_app. cbn [renders].
      destruct (Z.eqb_spec (L mod miniters cfg) 0); lia.
  - inversion H; subst w'. cbn [trace]. rewrite renders_app. cbn [renders]. lia.
Qed.

Lemma tqdm_render_count_witness :
  renders (trace eager_world) =
    1 + 3 / miniters eager_cfg
    + (if leave eager_cfg then (if 3 mod miniters eager_cfg =? 0 then 0 else 1)
       else 1).
Proof.
  apply (tqdm_render_count Z frozen_clock sample_items eager_cfg eager_world).
  - reflexivity.
  - intros i j _. reflexivity.
  - vm_compute. reflexivity.
Defined.

(* ================================================================== *)
(** * Further properties of the meter *)
(* ================================================================== *)

(** ** The meter of a finished job *)

(** A positive finite float divided by itself is exactly one. *)
Lemma fquo_self (m : positive) (e : Z) :
  fquo (S754_finite false m e) (S754_finite false m e)
  = S754_finite false 4503599627370496 (-52).
Proof.
  unfold fquo, SFdiv. rewrite SFdiv_core_spec. cbv zeta. cbn [xorb].
  replace (Zdigits2 (Zpos m) + e - (Zdigits2 (Zpos m) + e)) with 0 by lia.
  replace (e - e) with 0 by lia.
  change (Z.min (fexp prec emax 0) 0) with (-53).
  change (0 - -53) with 53.
  rewrite (Z.mul_comm (Zpos m)), Z.div_mul, Z.mod_mul by lia.
  rewrite new_location_0. vm_compute. reflexivity.
Qed.

(** With nothing left to do the remaining time, when it can be computed,
    is zero. *)
Lemma left_str_done (n : Z) (elapsed : float) (ls : string) :
  left_str n n elapsed = Ok ls -> n <> 0 -> ls = "00:00".
Proof.
  unfold left_str. intros H N.
  destruct (Z.eqb_spec n 0); [lia|]. cbn [negb] in H.
  destruct (float_of_int n) as [fn|]; [|discriminate H]. cbn [rbind] in H.
  destruct (float_div elapsed fn) as [q|]; [|discriminate H]. cbn [rbind] in H.
  rewrite Z.sub_diag in H.
  change (float_of_int 0) with (Ok (S754_zero false)) in H. cbn [rbind] in H.
  destruct q as [s|s| |s m e]; cbn in H; try discriminate H;
    now injection H as <-.
Qed.

(** X8: when the count has reached a positive total, every line
    [format_meter] returns shows a full bar of ten marks, [100%] and a
    remaining time of [00:00], whatever the size of the count and the
    elapsed time. *)
Theorem format_meter_complete (n : Z) (elapsed : float) (line : string) :
  0 < n ->
  format_meter n (Some n) elapsed = Ok line ->
  exists es rs,
    format_interval elapsed = Ok es /\ rate_str n elapsed = Ok rs
    /\ line = "|##########| " ++ fmt_d n ++ "/" ++ fmt_d n
              ++ " 100% [elapsed: " ++ es ++ " left: 00:00, " ++ rs
              ++ " iters/sec]".
Proof.
  intros Hn. rewrite format_meter_Some.
  assert (Hb : takes_known_branch n (Some n) = true)
    by (apply takes_known_branch_iff; exists n; repeat split; lia).
  rewrite Hb.
  destruct (format_interval elapsed) as [es|]; [|discriminate]. cbn [rbind].
  destruct (rate_str n elapsed) as [rs|]; [|discriminate]. cbn [rbind].
  unfold fraction.
  destruct (float_of_int n) as [fn|] eqn:Fn; [|discriminate]. cbn [rbind].
  destruct (float_of_int_pos n fn Hn Fn) as (m & e & -> & _).
  unfold float_div. cbn [float_truth rbind]. rewrite fquo_self.
  change (bar_length (S754_finite false 4503599627370496 (-52)))
    with (Ok (A:=Z) 10).
  change (percentage (S754_finite false 4503599627370496 (-52)))
    with (Ok (A:=string) "100%").
  cbn [rbind].
  destruct (left_str n n elapsed) as [ls|] eqn:Ls; [|discriminate].
  cbn [rbind]. apply left_str_done in Ls; [|lia]. subst ls.
  intros H. injection H as <-. exists es, rs. repeat split.
Qed.

Lemma format_meter_complete_witness :
  exists es rs,
    format_interval f_3_07 = Ok es /\ rate_str 50 f_3_07 = Ok rs
    /\ "|##########| 50/50 100% [elapsed: 00:03 left: 00:00, 16.29 iters/sec]"
       = "|##########| " ++ fmt_d 50 ++ "/" ++ fmt_d 50
         ++ " 100% [elapsed: " ++ es ++ " left: 00:00, " ++ rs ++ " iters/sec]".
Proof.
  apply (format_meter_complete 50 f_3_07); [lia | vm_compute; reflexivity].
Defined.

(** ** Reading an interval back *)

(** The number a string of decimal digits denotes. *)
Fixpoint dec_value (s : string) : Z :=
  match s with
  | EmptyString => 0
  | String c s' =>
      (Z.of_nat (nat_of_ascii c) - 48) * 10 ^ len s' + dec_value s'
  end.

(** The seconds an [H:MM:SS] or [MM:SS] string stands for. *)
Definition interval_seconds (out : string) : option Z :=
  match fields out with
  | [m; s] => Some (dec_value m * 60 + dec_value s)
  | [h; m; s] => Some (dec_value h * 3600 + dec_value m * 60 + dec_value s)
  | _ => None
  end.

Lemma digit_char_value (d : Z) :
  0 <= d < 10 -> Z.of_nat (nat_of_ascii (digit_char d)) - 48 = d.
Proof.
  intros H. assert (E : exists k, (k < 10)%nat /\ d = Z.of_nat k).
  { exists (Z.to_nat d). lia. }
  destruct E as (k & Hk & ->).
  do 10 (destruct k as [|k]; [reflexivity|]). lia.
Qed.

Lemma len_String (c : ascii) (s : string) : len (String c s) = len s + 1.
Proof. unfold len. cbn [String.length]. lia. Qed.

(** The fuel of [dec_digits] is enough: the digits written denote the
    number. *)
Lemma dec_loop_value (fuel : nat) :
  forall k acc,
    0 <= k -> Z.log2 k < Z.of_nat fuel ->
    dec_value (dec_loop fuel k acc) = k * 10 ^ len acc + dec_value acc.
Proof.
  induction fuel as [|fuel IH]; intros k acc Hk Hf.
  - pose proof (Z.log2_nonneg k). lia.
  - cbn [dec_loop].
    pose proof (Z.div_mod k 10 ltac:(lia)) as D.
    pose proof (Z.mod_pos_bound k 10 ltac:(lia)) as B.
    assert (V : dec_value (String (digit_char (k mod 10)) acc)
                = (k mod 10) * 10 ^ len acc + dec_value acc).
    { cbn [dec_value]. now rewrite digit_char_value by lia. }
    destruct (Z.eqb_spec (k / 10) 0) as [E|N].
    + rewrite V. f_equal. f_equal. lia.
    + assert (Q : 0 < k / 10) by (pose proof (Z.div_pos k 10 Hk ltac:(lia)); lia).
      rewrite IH.
      * rewrite V, len_String, Z.pow_add_r, Z.pow_1_r by (unfold len; lia). lia.
      * lia.
      * assert (Z.log2 (k / 10) <= Z.log2 (k / 2)).
        { apply Z.log2_le_mono. apply Z.div_le_compat_l; lia. }
        assert (Z.log2 (k / 2) = Z.log2 k - 1).
        { rewrite <- Z.div2_div, Z.div2_spec, Z.log2_shiftr by lia.
          assert (1 <= Z.log2 k); [|lia].
          change 1 with (Z.log2 2). apply Z.log2_le_mono. lia. }
        lia.
Qed.

Lemma dec_value_dec_digits (k : Z) : 0 <= k -> dec_value (dec_digits k) = k.
Proof.
  intros H. unfold dec_digits. rewrite dec_loop_value.
  - cbn. lia.
  - exact H.
  - pose proof (Z.log2_nonneg k). lia.
Qed.

Lemma dec_value_fmt_0d (k : Z) : 0 <= k < 60 -> dec_value (fmt_0d 2 k) = k.
Proof.
  intros H. assert (E : exists j, (j < 60)%nat /\ k = Z.of_nat j).
  { exists (Z.to_nat k). lia. }
  destruct E as (j & Hj & ->).
  assert (F : forallb (fun i => dec_value (fmt_0d 2 (Z.of_nat i)) =? Z.of_nat i)
                (seq 0 60) = true) by (vm_compute; reflexivity).
  rewrite forallb_forall in F. apply Z.eqb_eq, F, in_seq. lia.
Qed.

(** X9: the string [format_interval] returns for a duration [t >= 0]
    determines the integer part of [t]: read back as hours, minutes and
    seconds it gives [int(t)].  Two durations print alike only when
    their integer parts are equal. *)
Theorem format_interval_roundtrip (t : float) (out : string) :
  nonneg_finite t = true ->
  format_interval t = Ok out ->
  exists secs, int_of_float t = Ok secs /\ interval_seconds out = Some secs.
Proof.
  intros N F. destruct (int_of_float_nonneg t N) as (secs & I & Hs).
  exists secs. split; [exact I|].
  rewrite (format_interval_eq t secs I) in F.
  apply (f_equal (fun r => match r with Ok x => x | Raise _ => out end)) in F.
  subst out.
  set (h := secs / 60 / 60). set (m := secs / 60 mod 60). set (s := secs mod 60).
  assert (Hm : 0 <= m < 60) by (apply Z.mod_pos_bound; lia).
  assert (Hsec : 0 <= s < 60) by (apply Z.mod_pos_bound; lia).
  assert (Hh : 0 <= h) by (apply Z.div_pos; [apply Z.div_pos|]; lia).
  assert (D : secs = h * 3600 + m * 60 + s).
  { pose proof (Z.div_mod secs 60). pose proof (Z.div_mod (secs / 60) 60).
    unfold h, m, s. lia. }
  unfold interval_seconds.
  destruct (Z.eqb_spec h 0) as [E|E]; cbn [negb].
  - rewrite fields_digits_colon
      by (apply digits2_all; now apply digits2_fmt_0d).
    rewrite fields_digits by (apply digits2_all; now apply digits2_fmt_0d).
    rewrite !dec_value_fmt_0d by assumption. f_equal. lia.
  - rewrite fmt_d_nonneg by lia.
    rewrite fields_digits_colon by (apply digits1_all, digits1_dec_digits).
    rewrite fields_digits_colon
      by (apply digits2_all; now apply digits2_fmt_0d).
    rewrite fields_digits by (apply digits2_all; now apply digits2_fmt_0d).
    rewrite !dec_value_fmt_0d by assumption.
    rewrite dec_value_dec_digits by lia. f_equal. lia.
Qed.

Lemma format_interval_roundtrip_witness :
  exists secs,
    int_of_float f_3725_5 = Ok secs /\ interval_seconds "1:02:05" = Some secs.
Proof.
  apply (format_interval_roundtrip f_3725_5 "1:02:05");
    vm_compute; reflexivity.
Defined.

(* ================================================================== *)
(** * The status printer on a terminal line *)
(* ================================================================== *)

(** The display: a carriage return moves the cursor to the first column,
    and the characters written next replace those of the line, leaving the
    rest of the line as it was. *)
Fixpoint drop_chars (k : nat) (s : string) : string :=
  match k, s with
  | O, _ => s
  | S _, EmptyString => EmptyString
  | S k', String _ s' => drop_chars k' s'
  end.

Definition overwrite (screen line : string) : string :=
  line ++ drop_chars (String.length line) screen.

Definition spaces (k : nat) : string := repeat_string " " k.

Lemma drop_chars_app (a b : string) (k : nat) :
  drop_chars (String.length a + k) (a ++ b) = drop_chars k b.
Proof. induction a as [|c a IH]; [reflexivity | exact IH]. Qed.

Lemma drop_chars_short (a b : string) (k : nat) :
  (k <= String.length a)%nat ->
  drop_chars k (a ++ b) = drop_chars k a ++ b.
Proof.
  revert k. induction a as [|c a IH]; intros k H.
  - cbn in H. assert (k = 0%nat) by lia. subst. reflexivity.
  - destruct k as [|k]; [reflexivity|]. cbn in *. apply IH. lia.
Qed.

Lemma drop_chars_spaces (j k : nat) : drop_chars k (spaces j) = spaces (j - k).
Proof.
  revert k. induction j as [|j IH]; intros k.
  - destruct k; reflexivity.
  - destruct k as [|k]; [reflexivity|]. cbn. apply IH.
Qed.

Lemma drop_chars_all (a : string) : drop_chars (String.length a) a = "".
Proof. induction a as [|c a IH]; [reflexivity | exact IH]. Qed.

Lemma spaces_app (a b : nat) : spaces a ++ spaces b = spaces (a + b).
Proof.
  unfold spaces. induction a as [|a IH]; [reflexivity|].
  cbn [Nat.add repeat_string append]. now rewrite <- IH.
Qed.

(** X10: no residue.  If the terminal line shows the last status text
    followed by blanks, and the printer remembers the length of that text,
    then after [print_status(s)] the line shows [s] followed by blanks
    only, and the printer remembers the length of [s]: whatever the
    lengths, nothing of the previous text stays visible. *)
Theorem print_status_no_residue (A : Type) (sp : StatusPrinter)
    (s text : string) (j : nat) (w : world A) :
  last_printed_len sp = len text ->
  exists written sp' j',
    print_status sp s w =
      (Ok sp',
       mkWorld (trace w ++ [FileWrite (CR ++ written); FileFlush]) (ticks w))
    /\ overwrite (text ++ spaces j) written = s ++ spaces j'
    /\ last_printed_len sp' = len s.
Proof.
  intros Hl. rewrite print_status_eq. unfold status_line. rewrite Hl.
  set (p := Z.to_nat (Z.max (len text - len s) 0)).
  exists (s ++ spaces p), (mkStatusPrinter (len s)).
  destruct (Nat.le_gt_cases (String.length text) (String.length s)) as [L|G].
  - assert (P0 : p = 0%nat) by (unfold p, len; lia).
    exists (j - (String.length s - String.length text))%nat.
    split; [reflexivity|]. split; [|reflexivity].
    unfold overwrite. rewrite P0. cbn [spaces repeat_string].
    rewrite sapp_assoc. f_equal. cbn [append].
    replace (String.length (s ++ "")) with
      (String.length text + (String.length s - String.length text))%nat
      by (rewrite length_app; cbn; lia).
    rewrite drop_chars_app. apply drop_chars_spaces.
  - assert (P : p = (String.length text - String.length s)%nat)
      by (unfold p, len; lia).
    exists (p + j)%nat. split; [reflexivity|]. split; [|reflexivity].
    unfold overwrite. rewrite sapp_assoc. f_equal.
    rewrite <- spaces_app. f_equal.
    replace (String.length (s ++ spaces p)) with (String.length text + 0)%nat.
    + now rewrite drop_chars_app.
    + rewrite length_app. unfold spaces. rewrite length_repeat_space. lia.
Qed.

Lemma print_status_no_residue_witness :
  exists written sp' j',
    print_status (mkStatusPrinter 5) "ab" (mkWorld (A:=Z) [] 0) =
      (Ok sp', mkWorld ([] ++ [FileWrite (CR ++ written); FileFlush]) 0)
    /\ overwrite ("hello" ++ spaces 2) written = "ab" ++ spaces j'
    /\ last_printed_len sp' = len "ab".
Proof.
  apply (print_status_no_residue Z (mkStatusPrinter 5) "ab" "hello" 2
           (mkWorld [] 0)).
  reflexivity.
Defined.

(* ================================================================== *)
(** * [trange] *)
(* ================================================================== *)

(** [range] applied to the positional arguments, integers here: one to
    three of them, and a step that is not zero. *)
Definition range_args (args : list Z) : result (Z * Z * Z) :=
  match args with
  | [stop] => Ok (0, stop, 1)
  | [start; stop] => Ok (start, stop, 1)
  | [start; stop; step] =>
      if step =? 0 then Raise ValueError else Ok (start, stop, step)
  | _ => Raise TypeError
  end.

(** The number of elements of [range(start, stop, step)]. *)
Definition range_len (start stop step : Z) : Z :=
  if 0 <? step then
    if start <? stop then (stop - start - 1) / step + 1 else 0
  else
    if stop <? start then (start - stop - 1) / (- step) + 1 else 0.

(** Its elements, in order. *)
Definition range_items (start stop step : Z) : list Z :=
  map (fun i => start + Z.of_nat i * step)
    (seq 0 (Z.to_nat (range_len start stop step))).

(** [sys.maxsize] on a 64-bit build: [len()] of a longer range raises
    [OverflowError], which [tqdm] does not catch. *)
Definition maxsize : Z := 2 ^ 63 - 1.

(** [trange]: the range is built from the positional arguments first,
    then wrapped by [tqdm] with the keyword arguments. *)
Definition trange (clock : nat -> float) (args : list Z) (cfg : config)
  : M Z unit :=
  match range_args args with
  | Raise e => @lift Z unit (Raise e)
  | Ok (start, stop, step) =>
      let L := range_len start stop step in
      match total cfg with
      | None =>
          if maxsize <? L then @lift Z unit (Raise OverflowError)
          else tqdm clock (mkIterable (range_items start stop step) (Some L)) cfg
      | Some _ =>
          tqdm clock (mkIterable (range_items start stop step) (Some L)) cfg
      end
  end.

Definition run_trange (clock : nat -> float) (args : list Z) (cfg : config)
  : result unit * world Z :=
  trange clock args cfg (mkWorld [] 0).

Lemma range_len_nonneg (start stop step : Z) : 0 <= range_len start stop step.
Proof.
  unfold range_len.
  destruct (Z.ltb_spec 0 step), (Z.ltb_spec start stop), (Z.ltb_spec stop start);
    try lia.
  - assert (0 <= (stop - start - 1) / step) by (apply Z.div_pos; lia). lia.
  - assert (0 <= (start - stop - 1) / - step).
    { destruct (Z.eq_dec step 0) as [->|]; [now rewrite Z.div_0_r|].
      apply Z.div_pos; lia. }
    lia.
Qed.

(** Every element lies between [start] (included) and [stop] (excluded). *)
Lemma range_items_bounds (start stop step x : Z) :
  step <> 0 -> In x (range_items start stop step) ->
  if 0 <? step then start <= x < stop else stop < x <= start.
Proof.
  intros Hs Hx. unfold range_items in Hx. apply in_map_iff in Hx.
  destruct Hx as (i & <- & Hi). apply in_seq in Hi.
  unfold range_len in Hi.
  destruct (Z.ltb_spec 0 step) as [P|P].
  - destruct (Z.ltb_spec start stop) as [L|L]; [|cbn in Hi; lia].
    assert (Z.of_nat i <= (stop - start - 1) / step) by lia.
    pose proof (Z.mul_div_le (stop - start - 1) step P). nia.
  - destruct (Z.ltb_spec stop start) as [L|L]; [|cbn in Hi; lia].
    assert (Z.of_nat i <= (start - stop - 1) / (- step)) by lia.
    pose proof (Z.mul_div_le (start - stop - 1) (- step) ltac:(lia)). nia.
Qed.

(** The values yielded by a run of [tqdm] that completes. *)
Lemma run_complete_yields (A : Type) (clock : nat -> float)
    (it : iterable A) (cfg : config) (w' : world A) :
  run clock it cfg = (Ok tt, w') -> yields (trace w') = items it.
Proof.
  intros H. apply run_stages in H. cbv zeta in H.
  rewrite render_eq in H.
  destruct (format_meter 0 _ _) as [m|e]; [|now destruct H].
  rewrite print_status_eq in H. cbn [trace ticks] in H.
  destruct (loop _ _ _ _ _ _ _) as [[st|e] w2] eqn:L; [|now destruct H].
  apply finish_yields in H. rewrite H.
  apply loop_yields in L. destruct L as [_ L].
  rewrite (L st eq_refl). reflexivity.
Qed.

Lemma length_range_items (start stop step : Z) :
  Z.of_nat (List.length (range_items start stop step)) = range_len start stop step.
Proof.
  unfold range_items. rewrite length_map, length_seq, Z2Nat.id; [reflexivity|].
  apply range_len_nonneg.
Qed.

(** X11: a [trange] consumed to completion hands over exactly the
    elements of the range: [start + i * step] for [i] below the length of
    the range, each between [start] (included) and [stop] (excluded). *)
Theorem trange_pass_through (clock : nat -> float) (args : list Z)
    (cfg : config) (w' : world Z) :
  run_trange clock args cfg = (Ok tt, w') ->
  exists start stop step,
    range_args args = Ok (start, stop, step) /\ step <> 0
    /\ yields (trace w') =
         map (fun i => start + Z.of_nat i * step)
           (seq 0 (Z.to_nat (range_len start stop step)))
    /\ Z.of_nat (List.length (yields (trace w'))) = range_len start stop step
    /\ (forall x, In x (yields (trace w')) ->
        if 0 <? step then start <= x < stop else stop < x <= start).
Proof.
  unfold run_trange, trange. intros H.
  destruct (range_args args) as [[[start stop] step]|e] eqn:R;
    [|discriminate H].
  assert (Hs : step <> 0).
  { unfold range_args in R.
    destruct args as [|a [|b [|c [|d l]]]]; try discriminate R;
      try (injection R as <- <- <-; lia).
    destruct (Z.eqb_spec c 0); [discriminate R|]. injection R as <- <- <-.
    assumption. }
  assert (Y : yields (trace w') = range_items start stop step).
  { cbv zeta in H. destruct (total cfg) as [t|] eqn:T.
    - now apply run_complete_yields in H.
    - destruct (maxsize <? range_len start stop step); [discriminate H|].
      now apply run_complete_yields in H. }
  exists start, stop, step. split; [reflexivity|]. split; [exact Hs|].
  rewrite Y. split; [reflexivity|]. split; [apply length_range_items|].
  intros x. now apply range_items_bounds.
Qed.

Lemma trange_pass_through_witness :
  exists start stop step,
    range_args [1; 10; 2] = Ok (start, stop, step) /\ step <> 0
    /\ yields (trace (snd (run_trange sample_clock [1; 10; 2] sample_cfg))) =
         map (fun i => start + Z.of_nat i * step)
           (seq 0 (Z.to_nat (range_len start stop step)))
    /\ Z.of_nat (List.length
                   (yields (trace (snd (run_trange sample_clock [1; 10; 2] sample_cfg)))))
       = range_len start stop step
    /\ (forall x,
        In x (yields (trace (snd (run_trange sample_clock [1; 10; 2] sample_cfg)))) ->
        if 0 <? step then start <= x < stop else stop < x <= start).
Proof.
  apply (trange_pass_through sample_clock [1; 10; 2] sample_cfg).
  vm_compute. reflexivity.
Defined.




(** ** What the status lines show *)

(** The writes on the sink, each with the number of values yielded before
    it (counted from [k]). *)
Fixpoint writes_with_counts {A : Type} (tr : list (event A)) (k : Z)
  : list (Z * string) :=
  match tr with
  | [] => []
  | Yield _ :: tr' => writes_with_counts tr' (k + 1)
  | FileWrite s :: tr' => (k, s) :: writes_with_counts tr' k
  | _ :: tr' => writes_with_counts tr' k
  end.

(** A write made after [k] values were yielded is the closing newline, a
    cleared line, or a status line whose meter was formatted for the
    count [k]. *)
Definition shows (total' : option Z) (pfx : string) (ks : Z * string) : Prop :=
  let (k, s) := ks in
  s = NL
  \/ (exists pad, s = CR ++ str_mul " " pad)
  \/ (exists e m pad,
        format_meter k total' e = Ok m
        /\ s = CR ++ (pfx ++ m) ++ str_mul " " pad).

Lemma writes_with_counts_app (A : Type) (a b : list (event A)) :
  forall k,
    writes_with_counts (a ++ b) k =
      (writes_with_counts a k
       ++ writes_with_counts b (k + Z.of_nat (List.length (yields a))))%list.
Proof.
  induction a as [|e a IH]; intros k.
  - cbn. now rewrite Z.add_0_r.
  - destruct e; cbn [app writes_with_counts yields List.length];
      rewrite IH; try reflexivity.
    rewrite Nat2Z.inj_succ. do 2 f_equal. lia.
Qed.

Section Accurate.

Variable A : Type.
Variable clock : nat -> float.
Variable cfg : config.
Variable total' : option Z.
Variable pfx : string.

Lemma loop_accurate (xs : list A) :
  forall st (w : world A) r w',
    loop clock cfg total' pfx xs st w = (r, w') ->
    exists ev,
      trace w' = (trace w ++ ev)%list
      /\ Forall (shows total' pfx) (writes_with_counts ev (n st))
      /\ (forall st', r = Ok st' ->
          n st' = n st + Z.of_nat (List.length (yields ev))).
Proof.
  induction xs as [|x xs IH]; intros st w r w' H.
  - cbn in H. inversion H; subst. exists []. rewrite app_nil_r.
    split; [reflexivity|]. split; [constructor|].
    intros st' E. injection E as <-. cbn. lia.
  - cbn [loop] in H. unfold bind at 1 in H. unfold emit in H.
    unfold bind in H.
    pose proof (after_yield_outcome A clock cfg total' pfx st
                  (mkWorld (trace w ++ [Yield x]) (ticks w))) as O.
    destruct (after_yield _ _ _ _ _ _) as [[st1|e] w1] eqn:Hs.
    + inversion O; subst; cbn [trace ticks] in *.
      * apply IH in H. destruct H as (ev & E & F & N). cbn [trace n] in *.
        exists (Yield x :: ev). rewrite E, <- app_assoc.
        split; [reflexivity|]. split; [exact F|].
        intros st' R. rewrite (N st' R). cbn [yields List.length].
        rewrite Nat2Z.inj_succ. lia.
      * apply IH in H. destruct H as (ev & E & F & N). cbn [trace n] in *.
        exists (Yield x
                :: FileWrite (status_line (sp st) (pfx ++ m)) :: FileFlush :: ev).
        rewrite E, <- !app_assoc. split; [reflexivity|].
        split.
        -- cbn [writes_with_counts]. constructor; [|exact F].
           right. right. eexists _, m, _. split; [eassumption | reflexivity].
        -- intros st' R. rewrite (N st' R). cbn [yields List.length].
           rewrite Nat2Z.inj_succ. lia.
    + inversion H; subst. inversion O; subst. cbn [trace].
      exists [Yield x]. split; [reflexivity|]. split; [constructor|].
      intros st' E. discriminate E.
Qed.

End Accurate.

(** X13: every status line shows the number of items handed over so far.
    In any run, a write on the sink that follows [k] yielded values is a
    status line whose meter was formatted for the count [k] (with the
    resolved total), a cleared line, or the closing newline. *)
Theorem tqdm_display_accurate (A : Type) (clock : nat -> float)
    (it : iterable A) (cfg : config) (r : result unit) (w' : world A) :
  run clock it cfg = (r, w') ->
  Forall (shows (resolve_total it cfg) (prefix_of cfg))
    (writes_with_counts (trace w') 0).
Proof.
  intros H. apply run_stages in H. cbv zeta in H.
  rewrite render_eq in H.
  destruct (format_meter 0 _ _) as [m0|e] eqn:M0.
  2:{ destruct H as [_ ->]. constructor. }
  rewrite print_status_eq in H. cbn [trace ticks app] in H.
  assert (F0 : shows (resolve_total it cfg) (prefix_of cfg)
                 (0, status_line StatusPrinter_init (prefix_of cfg ++ m0))).
  { right. right. eexists _, m0, _. split; [exact M0 | reflexivity]. }
  destruct (loop _ _ _ _ _ _ _) as [[st|e] w2] eqn:L.
  - apply loop_accurate in L. destruct L as (ev & E & F & N).
    cbn [trace n] in *. specialize (N st eq_refl).
    rewrite finish_eq in H.
    assert (T : trace w2 = ([FileWrite (status_line StatusPrinter_init
                                          (prefix_of cfg ++ m0)); FileFlush]
                            ++ ev)%list) by exact E.
    assert (W2 : Forall (shows (resolve_total it cfg) (prefix_of cfg))
                   (writes_with_counts (trace w2) 0)).
    { rewrite T. cbn [app writes_with_counts]. constructor; assumption. }
    assert (Y : Z.of_nat (List.length (yields (trace w2))) = n st).
    { rewrite T. cbn [app yields]. lia. }
    destruct (leave cfg); cbn [negb] in H.
    + destruct (last_print_n st <? n st).
      * destruct (format_meter (n st) _ _) as [m|e] eqn:M.
        -- inversion H; subst w'. cbn [trace].
           rewrite writes_with_counts_app. apply Forall_app. split; [exact W2|].
           rewrite Y, Z.add_0_l. cbn [writes_with_counts].
           constructor.
           ++ right. right. eexists _, m, _. split; [exact M | reflexivity].
           ++ constructor; [now left | constructor].
        -- inversion H; subst w'. exact W2.
      * inversion H; subst w'. cbn [trace].
        rewrite writes_with_counts_app. apply Forall_app. split; [exact W2|].
        cbn [writes_with_counts]. constructor; [now left | constructor].
    + inversion H; subst w'. cbn [trace].
      rewrite writes_with_counts_app. apply Forall_app. split; [exact W2|].
      cbn [writes_with_counts]. constructor; [|constructor].
      right. left. eexists. unfold status_line. cbn [append]. reflexivity.
  - destruct H as [_ ->]. apply loop_accurate in L.
    destruct L as (ev & E & F & _). cbn [trace n] in *. rewrite E.
    cbn [app writes_with_counts]. constructor; assumption.
Qed.

Lemma tqdm_display_accurate_witness :
  Forall (shows (resolve_total sample_items sample_cfg) (prefix_of sample_cfg))
    (writes_with_counts (trace sample_world) 0).
Proof.
  apply (tqdm_display_accurate Z sample_clock sample_items sample_cfg (Ok tt)).
  vm_compute. reflexivity.
Defined.
